(** * goamf / amf0: the AMF0 value decoder of [amf0/amf.go]

    A shallow embedding of [Parser.Parse], [Parser.parseValue],
    [Parser.parseProperties], [Parser.readString], [Parser.readDouble] and
    [Parser.readBytes], followed by the properties of the decoder.

    Modelling decisions.
    - The [io.Reader] of a [Parser] is a finite in-memory byte stream: the
      list of the bytes not yet delivered.  [io.ReadFull] on such a stream
      delivers the requested bytes, or what is left together with [io.EOF]
      (nothing was left) or [io.ErrUnexpectedEOF] (some bytes were left).
    - Go's [int] is taken to be 64 bits wide, so [int(uint32)] never wraps and
      the byte counter is an unbounded [Z]; [int32(uint32)] in [readString]
      does wrap and is written out.
    - A [float64] is represented by its IEEE-754 bit pattern:
      [math.Float64frombits] is a reinterpretation of the 64 bits.
    - [panic]/[recover] is an error monad over the parser state: a panic keeps
      the state reached so far, and [Parse] converts it into its [err] result.
    - A [*Value] is written only by the activation of [parseValue] that
      received it, and only before it is appended to [p.references] or to a
      slice.  Values are therefore trees; the one place where a write through
      the pointer is observable before the activation ends is a panic, and
      [parseValue] runs over a frame holding the current contents of [*value]
      so that [Parse] returns exactly those contents.
    - The mutual recursion of [parseValue] and [parseProperties] is bounded by
      a fuel; [Parse] supplies a fuel computed from the length of the stream,
      which is shown to suffice ([Parse_total]) and not to matter
      ([Parse_fuel_Parse]).  The [for] loop of a strict array runs on its
      declared count and needs no fuel.
    - Running out of memory in [make([]byte, length)] is not modelled. *)

From Stdlib Require Import ZArith List Bool Lia.
From Stdlib Require Import Strings.String Strings.Byte DecimalString.
Import ListNotations.

Local Open Scope Z_scope.

(** ** Markers *)

Definition Marker := byte.

Abbreviation Number := x00 (only parsing).
Abbreviation Boolean := x01 (only parsing).
Abbreviation String := x02 (only parsing).
Abbreviation Object := x03 (only parsing).
Abbreviation Movieclip := x04 (only parsing).
Abbreviation Null := x05 (only parsing).
Abbreviation Undefined := x06 (only parsing).
Abbreviation Reference := x07 (only parsing).
Abbreviation ECMAArray := x08 (only parsing).
Abbreviation ObjectEnd := x09 (only parsing).
Abbreviation StrictArray := x0a (only parsing).
Abbreviation Date := x0b (only parsing).
Abbreviation LongString := x0c (only parsing).
Abbreviation Unsupported := x0d (only parsing).
Abbreviation Recordset := x0e (only parsing).
Abbreviation XmlDocument := x0f (only parsing).
Abbreviation TypedObject := x10 (only parsing).
Abbreviation AvmPlusObject := x11 (only parsing).

Definition byteZ (b : byte) : Z := Z.of_N (Byte.to_N b).

(** ** Values *)

(** [Value] is the Go struct; [payload] is what its [Value interface{}] field
    holds: nothing, a [float64], a [bool], a [string] or a [[]*Value]. *)
Inductive Value : Type :=
  mkValue (marker : Marker) (name : string) (val : payload)
with payload : Type :=
| nil_
| float64 (bits : Z)
| bool_ (b : bool)
| string_ (s : string)
| values (vs : list Value).

Definition v_Marker (v : Value) : Marker := let 'mkValue m _ _ := v in m.
Definition v_Name (v : Value) : string := let 'mkValue _ n _ := v in n.
Definition v_Value (v : Value) : payload := let 'mkValue _ _ x := v in x.

(** [&Value{Marker: marker, Name: name}] *)
Definition newValue (marker : Marker) (name : string) : Value :=
  mkValue marker name nil_.

(** ** Errors and panics *)

Inductive error : Type :=
| EOF                          (* io.EOF *)
| ErrUnexpectedEOF             (* io.ErrUnexpectedEOF *)
| errorString (s : string)     (* errors.New(s) *)
| runtimeError (s : string).   (* a runtime.Error *)

(** What [panic] was called with: an [error] or a plain string. *)
Inductive panic_value : Type :=
| panicError (e : error)
| panicString (s : string).

(** The names the specification gives to the failures of the decoder. *)
Definition ShortRead (e : error) : Prop := e = EOF \/ e = ErrUnexpectedEOF.
Definition InvalidReference : error :=
  errorString
    "reference index is greater, than the amount of available reference objects".
Definition MalformedStream : error := errorString "i'm stupid and i fucked up".
Definition UnsupportedVersion : error := errorString "amf3 is not supported".
Definition UnsupportedType (m : Marker) : error :=
  errorString
    ("unsupported type " ++ NilEmpty.string_of_uint (N.to_uint (Byte.to_N m))).

(** ** The parser and its monad *)

Record Parser : Type := mkParser {
  reader : list byte;
  references : list Value;
  bytesRead : Z
}.

Definition New (r : list byte) : Parser :=
  {| reader := r; references := []; bytesRead := 0 |}.

Inductive result (A : Type) : Type :=
| Ret (a : A)
| Panic (r : panic_value)
| OutOfFuel.
Arguments Ret {A} a.
Arguments Panic {A} r.
Arguments OutOfFuel {A}.

(** A computation over a state [S] that returns, panics or runs out of fuel;
    the state is kept in all three cases. *)
Definition M (S A : Type) : Type := S -> result A * S.

Definition ret {S A} (a : A) : M S A := fun s => (Ret a, s).

Definition bind {S A B} (m : M S A) (k : A -> M S B) : M S B :=
  fun s =>
    match m s with
    | (Ret a, s') => k a s'
    | (Panic r, s') => (Panic r, s')
    | (OutOfFuel, s') => (OutOfFuel, s')
    end.

Definition panic {S A} (r : panic_value) : M S A := fun s => (Panic r, s).
Definition outOfFuel {S A} : M S A := fun s => (OutOfFuel, s).

Declare Scope go_scope.
Delimit Scope go_scope with go.
Notation "x <- m ;; k" := (bind m (fun x => k))
  (at level 61, m at next level, right associativity) : go_scope.
Notation "m ;; k" := (bind m (fun _ => k))
  (at level 61, right associativity) : go_scope.
Local Open Scope go_scope.

(** The frame of one activation of [parseValue]: the contents of [*value] and
    the parser. *)
Definition Frame : Type := (Value * Parser)%type.

Definition liftP {A} (m : M Parser A) : M Frame A :=
  fun f => let '(r, p') := m (snd f) in (r, (fst f, p')).

Definition getValue : M Frame Value := fun f => (Ret (fst f), f).

Definition setValue (x : payload) : M Frame unit :=
  fun f => let 'mkValue m n _ := fst f in (Ret tt, (mkValue m n x, snd f)).
Definition setMarker (m : Marker) : M Frame unit :=
  fun f => let 'mkValue _ n x := fst f in (Ret tt, (mkValue m n x, snd f)).
Definition setName (n : string) : M Frame unit :=
  fun f => let 'mkValue m _ x := fst f in (Ret tt, (mkValue m n x, snd f)).

(** [p.references = append(p.references, value)] *)
Definition register : M Frame unit :=
  fun f =>
    let p := snd f in
    (Ret tt,
     (fst f,
      {| reader := reader p;
         references := (references p ++ [fst f])%list;
         bytesRead := bytesRead p |})).

Definition getReferences : M Parser (list Value) :=
  fun p => (Ret (references p), p).

(** Running an activation of [parseValue] on a freshly allocated [Value]. *)
Definition call (body : M Frame unit) (init : Value) : M Parser Value :=
  fun p =>
    match body (init, p) with
    | (Ret _, (v, p')) => (Ret v, p')
    | (Panic r, (_, p')) => (Panic r, p')
    | (OutOfFuel, (_, p')) => (OutOfFuel, p')
    end.

(** ** Byte source *)

(** [io.ReadFull(reader, buffer)] with [len(buffer) = len]: the bytes
    delivered, their number and the error. *)
Definition ReadFull (r : list byte) (len : Z) : list byte * Z * option error :=
  let avail := Z.of_nat (List.length r) in
  if len <=? avail then (firstn (Z.to_nat len) r, len, None)
  else if avail =? 0 then ([], 0, Some EOF)
  else (r, avail, Some ErrUnexpectedEOF).

Definition readBytes (len : Z) : M Parser (list byte) :=
  fun p =>
    if len <? 0 then
      (* make([]byte, length) *)
      (Panic (panicError (runtimeError "makeslice: len out of range")), p)
    else
      let '(buffer, n, err) := ReadFull (reader p) len in
      let p' := {| reader := skipn (Z.to_nat n) (reader p);
                   references := references p;
                   bytesRead := bytesRead p + n |} in
      match err with
      | Some e => (Panic (panicError e), p')
      | None => (Ret buffer, p')
      end.

(** [data[i]] as an unsigned number, for the [binary.BigEndian] readers. *)
Definition at_ (data : list byte) (i : nat) : Z := byteZ (nth i data x00).

Definition Uint16 (b : list byte) : Z :=
  Z.lor (at_ b 1) (Z.shiftl (at_ b 0) 8).

Definition Uint32 (b : list byte) : Z :=
  Z.lor (Z.lor (Z.lor (at_ b 3) (Z.shiftl (at_ b 2) 8))
               (Z.shiftl (at_ b 1) 16))
        (Z.shiftl (at_ b 0) 24).

Definition Uint64 (b : list byte) : Z :=
  Z.lor (Z.lor (Z.lor (Z.lor (Z.lor (Z.lor (Z.lor
    (at_ b 7) (Z.shiftl (at_ b 6) 8)) (Z.shiftl (at_ b 5) 16))
    (Z.shiftl (at_ b 4) 24)) (Z.shiftl (at_ b 3) 32))
    (Z.shiftl (at_ b 2) 40)) (Z.shiftl (at_ b 1) 48))
    (Z.shiftl (at_ b 0) 56).

(** [int32(x)] for an unsigned 32-bit [x]. *)
Definition int32 (x : Z) : Z :=
  if x <? 2 ^ 31 then x else x - 2 ^ 32.

(** [data[0]]; a slice returned by [readBytes 1] has one element. *)
Definition index0 {S} (data : list byte) : M S byte :=
  match data with
  | b :: _ => ret b
  | [] => panic (panicError
                   (runtimeError "index out of range [0] with length 0"))
  end.

Definition readDouble : M Parser Z :=
  data <- readBytes 8 ;;
  ret (Uint64 data).

Definition readString (marker : Marker) : M Parser (string * Z) :=
  nameLength <-
    (if Byte.eqb marker String then
       data <- readBytes 2 ;; ret (int32 (Uint16 data))
     else if Byte.eqb marker LongString || Byte.eqb marker XmlDocument then
       data <- readBytes 4 ;; ret (int32 (Uint32 data))
     else ret 0) ;;
  data <- readBytes nameLength ;;
  ret (string_of_list_byte data, nameLength).

(** ** Value decoder *)

(** [fmt.Sprintf("%d", marker)] *)
Definition format_d (m : Marker) : string :=
  NilEmpty.string_of_uint (N.to_uint (Byte.to_N m)).

(** [for i := 0; i < n; i++ { arrayValue := ...; values = append(values,
    arrayValue) }] *)
Fixpoint forLoop (n : nat) (body : M Parser Value) (vals : list Value)
  : M Parser (list Value) :=
  match n with
  | O => ret vals
  | S n' =>
      arrayValue <- body ;;
      forLoop n' body (vals ++ [arrayValue])%list
  end.

(** The body of [parseValue], over the two decoders it calls. *)
Definition parseValue_body
    (parseProperties : M Parser (list Value)) (parseValue : M Frame unit)
  : M Frame unit :=
  value <- getValue ;;
  match v_Marker value with
  | Number =>
      d <- liftP readDouble ;;
      setValue (float64 d)
  | Boolean =>
      data <- liftP (readBytes 1) ;;
      b <- index0 data ;;
      setValue (bool_ (negb (Byte.eqb b x00)))
  | LongString | XmlDocument | String =>
      r <- liftP (readString (v_Marker value)) ;;
      setValue (string_ (fst r))
  | Object =>
      properties <- liftP parseProperties ;;
      setValue (values properties) ;;
      register
  | Null | Undefined =>
      setValue nil_
  | Reference =>
      data <- liftP (readBytes 2) ;;
      let index := Uint16 data in
      refs <- liftP getReferences ;;
      if index >? Z.of_nat (List.length refs) - 1 then
        panic (panicString
          "reference index is greater, than the amount of available reference objects")
      else
        match nth_error refs (Z.to_nat index) with
        | Some ref =>
            setValue (v_Value ref) ;;
            setMarker (v_Marker ref)
        | None => panic (panicError (runtimeError "index out of range"))
        end
  | ECMAArray =>
      liftP (readBytes 4) ;;
      properties <- liftP parseProperties ;;
      setValue (values properties) ;;
      register
  | StrictArray =>
      data <- liftP (readBytes 4) ;;
      let length := Uint32 data in
      data <- liftP (readBytes 1) ;;
      arrayMarker <- index0 data ;;
      vals <- liftP (forLoop (Z.to_nat length)
                       (call parseValue (newValue arrayMarker "")) []) ;;
      setValue (values vals)
  | Date =>
      liftP (readBytes 2) ;;
      data <- liftP (readBytes 8) ;;
      setValue (float64 (Uint64 data))
  | TypedObject =>
      r <- liftP (readString String) ;;
      setName (fst r) ;;
      properties <- liftP parseProperties ;;
      setValue (values properties) ;;
      register
  | AvmPlusObject =>
      panic (panicString "amf3 is not supported")
  | Unsupported | Recordset | Movieclip =>
      panic (panicString ("unsupported type " ++ format_d (v_Marker value)))
  | _ => ret tt
  end.

(** One turn of the [for] loop of [parseProperties]; [continue] is the rest
    of the loop. *)
Definition parseProperties_body
    (parseValue : M Frame unit)
    (continue : list Value -> M Parser (list Value))
    (properties : list Value)
  : M Parser (list Value) :=
  r <- readString String ;;
  let '(name, nameLength) := r in
  if nameLength =? 0 then
    data <- readBytes 1 ;;
    b <- index0 data ;;
    if Byte.eqb b ObjectEnd then ret properties
    else panic (panicString "i'm stupid and i fucked up")
  else
    data <- readBytes 1 ;;
    marker <- index0 data ;;
    property <- call parseValue (newValue marker name) ;;
    continue (properties ++ [property])%list.

(** The recursion of the decoder; [fuel] bounds the depth of the calls, and
    [parseProperties_loop fuel properties] is the [for] loop of
    [parseProperties] entered with [properties] accumulated so far. *)
Fixpoint parseValue (fuel : nat) : M Frame unit :=
  match fuel with
  | O => outOfFuel
  | S fuel' =>
      parseValue_body (parseProperties_loop fuel' []) (parseValue fuel')
  end
with parseProperties_loop (fuel : nat) (properties : list Value)
  : M Parser (list Value) :=
  match fuel with
  | O => outOfFuel
  | S fuel' =>
      parseProperties_body (parseValue fuel') (parseProperties_loop fuel')
        properties
  end.

Definition parseProperties (fuel : nat) : M Parser (list Value) :=
  parseProperties_loop fuel [].

(** ** Parser facade *)

(** The conversion done by the deferred [recover] of [Parse]. *)
Definition recovered (r : panic_value) : error :=
  match r with
  | panicError e => e
  | panicString s => errorString s
  end.

(** The three results of [Parse]; [r_value = None] is the nil pointer. *)
Record ParseResult : Type := mkResult {
  r_value : option Value;
  r_bytesRead : Z;
  r_err : option error
}.

(** [Parse] with the recursion bounded by [fuel]; [None] when the fuel does
    not suffice.  The named results start as [nil, 0, nil]; a panic leaves
    them as they are at that point and sets [err]. *)
Definition Parse_fuel (fuel : nat) (p : Parser)
  : option (ParseResult * Parser) :=
  match (data <- readBytes 1 ;; index0 data) p with
  | (Ret marker, p1) =>
      match parseValue fuel (newValue marker "", p1) with
      | (Ret _, (value, p2)) =>
          Some (mkResult (Some value) (bytesRead p2) None, p2)
      | (Panic r, (value, p2)) =>
          Some (mkResult (Some value) 0 (Some (recovered r)), p2)
      | (OutOfFuel, _) => None
      end
  | (Panic r, p1) => Some (mkResult None 0 (Some (recovered r)), p1)
  | (OutOfFuel, _) => None
  end.

(** [Parse]: the depth of the calls is bounded by the length of the stream. *)
Definition Parse (p : Parser) : option (ParseResult * Parser) :=
  Parse_fuel (S (S (List.length (reader p)))) p.

(** * Vocabulary of the properties *)

(** [wp m Q s]: running [m] from [s] ends in a result and a state that
    satisfy [Q]. *)
Definition wp {S A} (m : M S A) (Q : result A -> S -> Prop) (s : S) : Prop :=
  Q (fst (m s)) (snd (m s)).

(** What [bind] asks of its first computation. *)
Definition bindQ {S A B} (k : A -> M S B) (Q : result B -> S -> Prop)
  : result A -> S -> Prop :=
  fun r s =>
    match r with
    | Ret a => wp (k a) Q s
    | Panic x => Q (Panic x) s
    | OutOfFuel => Q OutOfFuel s
    end.

(** The result of [call]: that of the activation, with the final [*value]. *)
Definition callQ (Q : result Value -> Parser -> Prop)
  : result unit -> Frame -> Prop :=
  fun r f =>
    match r with
    | Ret _ => Q (Ret (fst f)) (snd f)
    | Panic x => Q (Panic x) (snd f)
    | OutOfFuel => Q OutOfFuel (snd f)
    end.

(** What every outcome of [readBytes] looks like. *)
Inductive readBytes_outcome (len : Z) (p : Parser)
  : result (list byte) -> Parser -> Prop :=
| rb_makeslice :
    len < 0 ->
    readBytes_outcome len p
      (Panic (panicError (runtimeError "makeslice: len out of range"))) p
| rb_full data rest :
    reader p = (data ++ rest)%list ->
    Z.of_nat (List.length data) = len ->
    readBytes_outcome len p (Ret data)
      {| reader := rest; references := references p;
         bytesRead := bytesRead p + len |}
| rb_short e :
    Z.of_nat (List.length (reader p)) < len ->
    ShortRead e ->
    readBytes_outcome len p (Panic (panicError e))
      {| reader := []; references := references p;
         bytesRead := bytesRead p + Z.of_nat (List.length (reader p)) |}.

(** [preserves R m]: whatever the outcome, [m] takes a state to one related
    to it by [R]. *)
Definition preserves {S A} (R : S -> S -> Prop) (m : M S A) : Prop :=
  forall s, R s (snd (m s)).

(** A relation on parsers, seen on frames. *)
Definition onParser (R : Parser -> Parser -> Prop) : Frame -> Frame -> Prop :=
  fun f f' => R (snd f) (snd f').

(** [extends p p']: [p'] is [p] after some bytes [taken] from the front of the
    stream, each counted once, and some entries [added] at the end of the
    reference table. *)
Definition extends (p p' : Parser) : Prop :=
  exists taken added,
    reader p = (taken ++ reader p')%list /\
    bytesRead p' = bytesRead p + Z.of_nat (List.length taken) /\
    references p' = (references p ++ added)%list.

(** [m] run from [s] does not exhaust its fuel. *)
Definition terminates {S A} (m : M S A) (s : S) : Prop :=
  fst (m s) <> OutOfFuel.

(** [m] needs no fuel at all. *)
Definition total {S A} (m : M S A) : Prop := forall s, terminates m s.

(** [*value] as a panic can leave it: the tag and the payload it started
    with; only a [TypedObject] may have received its class name. *)
Definition untouched (v v' : Value) : Prop :=
  v_Marker v' = v_Marker v /\
  v_Value v' = v_Value v /\
  (v_Marker v <> TypedObject -> v_Name v' = v_Name v).

(** The three ways in which [Parse] ends. *)
Inductive Parse_outcome (fuel : nat) (p : Parser)
  : ParseResult -> Parser -> Prop :=
| Parse_no_marker :
    reader p = [] ->
    Parse_outcome fuel p (mkResult None 0 (Some EOF)) p
| Parse_panicked marker rest x v p' :
    reader p = marker :: rest ->
    parseValue fuel
      (newValue marker "",
       {| reader := rest; references := references p;
          bytesRead := bytesRead p + 1 |}) = (Panic x, (v, p')) ->
    Parse_outcome fuel p (mkResult (Some v) 0 (Some (recovered x))) p'
| Parse_returned marker rest v p' :
    reader p = marker :: rest ->
    parseValue fuel
      (newValue marker "",
       {| reader := rest; references := references p;
          bytesRead := bytesRead p + 1 |}) = (Ret tt, (v, p')) ->
    Parse_outcome fuel p (mkResult (Some v) (bytesRead p') None) p'.

(** A failing [Parse] is one whose [err] result is set. *)
Definition failed (res : ParseResult) : Prop := r_err res <> None.

(** No value of the tree, at any depth, carries the [Reference] tag. *)
Fixpoint noReference (v : Value) : bool :=
  match v with
  | mkValue m _ x =>
      negb (Byte.eqb m Reference)
      && match x with
         | values vs => forallb noReference vs
         | _ => true
         end
  end.

(** The tags of the values that are registered in the reference table. *)
Definition complex (m : Marker) : bool :=
  Byte.eqb m Object || Byte.eqb m ECMAArray || Byte.eqb m TypedObject.

(** What an entry of the reference table looks like. *)
Definition registrable (v : Value) : bool :=
  complex (v_Marker v) && noReference v.

(** Every entry of the parser's reference table is [registrable]. *)
Definition tableOK (p : Parser) : Prop :=
  forallb registrable (references p) = true.

(** The parsers a program can hold: made by [New], then used by [Parse]. *)
Inductive reachable : Parser -> Prop :=
| reachable_New r : reachable (New r)
| reachable_Parse p res p' :
    reachable p -> Parse p = Some (res, p') -> reachable p'.

(** The reference table is left as it is. *)
Definition sameRefs (p p' : Parser) : Prop := references p' = references p.

(** What the decoder guarantees about tags: the table stays well formed
    whatever the outcome, and a value that is returned has no [Reference]
    tag. *)
Definition tagsOK_value : result unit -> Frame -> Prop :=
  fun r f => tableOK (snd f) /\ (r = Ret tt -> noReference (fst f) = true).

(** The same for a sequence of decoded values. *)
Definition tagsOK_list : result (list Value) -> Parser -> Prop :=
  fun r p =>
    tableOK p /\ forall l, r = Ret l -> forallb noReference l = true.

(** The tag and payload of a decoded value, against the tag [t] it was
    allocated with and the reference table [q]: the tag is kept, except that a
    backreference takes the tag and the payload of an entry of the table. *)
Definition tagOf (t : Marker) (e : Value) (q : Parser) : Prop :=
  (t <> Reference -> v_Marker e = t) /\
  (t = Reference ->
   exists ref, In ref (references q) /\
               v_Marker e = v_Marker ref /\ v_Value e = v_Value ref).

(** [refines m m']: wherever [m] does not run out of fuel, [m'] does the
    same as [m]. *)
Definition refines {S A} (m m' : M S A) : Prop :=
  forall s, fst (m s) <> OutOfFuel -> m' s = m s.

(** The tags that have a case of their own in the switch of [parseValue]. *)
Definition handled (m : Marker) : bool :=
  existsb (Byte.eqb m)
    [Number; Boolean; String; Object; Movieclip; Null; Undefined; Reference;
     ECMAArray; StrictArray; Date; LongString; Unsupported; Recordset;
     XmlDocument; TypedObject; AvmPlusObject].

(** The five shapes of a payload. *)
Inductive shape : Type := Snil | Sfloat | Sbool | Sstring | Svalues.

Definition shape_of_payload (x : payload) : shape :=
  match x with
  | nil_ => Snil
  | float64 _ => Sfloat
  | bool_ _ => Sbool
  | string_ _ => Sstring
  | values _ => Svalues
  end.

(** The shape [parseValue] gives to the payload of a value with tag [m];
    [None] for the tags that no decoded value carries. *)
Definition shape_of_tag (m : Marker) : option shape :=
  match m with
  | Number | Date => Some Sfloat
  | Boolean => Some Sbool
  | String | LongString | XmlDocument => Some Sstring
  | Object | ECMAArray | TypedObject | StrictArray => Some Svalues
  | Reference | Movieclip | Unsupported | Recordset | AvmPlusObject => None
  | _ => Some Snil
  end.

(** Equality of shapes. *)
Definition shape_eqb (s t : shape) : bool :=
  match s, t with
  | Snil, Snil | Sfloat, Sfloat | Sbool, Sbool | Sstring, Sstring
  | Svalues, Svalues => true
  | _, _ => false
  end.

(** The payload [x] has the shape that the tag [m] calls for. *)
Definition shape_ok (m : Marker) (x : payload) : bool :=
  match shape_of_tag m with
  | Some s => shape_eqb s (shape_of_payload x)
  | None => false
  end.

(** Every value of the tree, at any depth, has a payload of the shape of its
    tag. *)
Fixpoint wellShaped (v : Value) : bool :=
  match v with
  | mkValue m _ x =>
      shape_ok m x
      && match x with
         | values vs => forallb wellShaped vs
         | _ => true
         end
  end.

(** Every entry of the reference table is a well-shaped keyed container. *)
Definition tableShaped (p : Parser) : Prop :=
  forallb (fun v => complex (v_Marker v) && wellShaped v) (references p)
  = true.

(** What the decoder guarantees about shapes: the table stays well shaped
    whatever the outcome, and a value that is returned is well shaped. *)
Definition shapedOK_value : result unit -> Frame -> Prop :=
  fun r f => tableShaped (snd f) /\ (r = Ret tt -> wellShaped (fst f) = true).

(** The same for a sequence of decoded values. *)
Definition shapedOK_list : result (list Value) -> Parser -> Prop :=
  fun r p =>
    tableShaped p /\ forall l, r = Ret l -> forallb wellShaped l = true.

(** The errors [Parse] can return. *)
Definition expected_error (e : error) : Prop :=
  ShortRead e \/
  e = InvalidReference \/
  e = MalformedStream \/
  e = UnsupportedVersion \/
  e = UnsupportedType Movieclip \/
  e = UnsupportedType Unsupported \/
  e = UnsupportedType Recordset \/
  e = runtimeError "makeslice: len out of range".

(** A panic of the decoder in the parser state it leaves: the error is an
    expected one, and a short read has exhausted the stream. *)
Definition panicOK (x : panic_value) (p : Parser) : Prop :=
  expected_error (recovered x) /\ (ShortRead (recovered x) -> reader p = []).

(** Every panic of a computation on the parser is [panicOK]. *)
Definition panQ {A} : result A -> Parser -> Prop :=
  fun r p => forall x, r = Panic x -> panicOK x p.

(** Every panic of a computation on a frame is [panicOK]. *)
Definition panQF {A} : result A -> Frame -> Prop :=
  fun r f => forall x, r = Panic x -> panicOK x (snd f).


(** * Reasoning about computations *)

Lemma wp_bind {S A B} (m : M S A) (k : A -> M S B) Q s :
  wp m (bindQ k Q) s -> wp (bind m k) Q s.
Proof.
  unfold wp, bindQ, bind. destruct (m s) as [[a|x|] s']; cbn; auto.
Qed.

Lemma wp_mono {S A} (m : M S A) (Q Q' : result A -> S -> Prop) s :
  (forall r s', Q r s' -> Q' r s') -> wp m Q s -> wp m Q' s.
Proof. unfold wp; auto. Qed.

Lemma wp_liftP {A} (m : M Parser A) Q (f : Frame) :
  wp m (fun r p' => Q r (fst f, p')) (snd f) -> wp (liftP m) Q f.
Proof.
  unfold wp, liftP. destruct (m (snd f)) as [r p']; cbn; auto.
Qed.

Lemma wp_call (body : M Frame unit) init Q p :
  wp body (callQ Q) (init, p) -> wp (call body init) Q p.
Proof.
  unfold wp, callQ, call. destruct (body (init, p)) as [[a|x|] [v p']]; cbn; auto.
Qed.

Lemma wp_eq {S A} (m : M S A) s r s' :
  m s = (r, s') -> forall Q, wp m Q s -> Q r s'.
Proof. unfold wp. intros ->. auto. Qed.

(** ** The byte source *)

Lemma ReadFull_cases (r : list byte) (len : Z) :
  0 <= len ->
  (len <= Z.of_nat (List.length r) /\
   ReadFull r len = (firstn (Z.to_nat len) r, len, None)) \/
  (Z.of_nat (List.length r) < len /\
   exists e, ShortRead e /\
     ReadFull r len = (r, Z.of_nat (List.length r), Some e) /\
     (e = EOF <-> r = [])).
Proof.
  intros Hlen. unfold ReadFull.
  destruct (Z.leb_spec len (Z.of_nat (List.length r))); [left; auto|right].
  split; [assumption|].
  destruct (Z.eqb_spec (Z.of_nat (List.length r)) 0) as [E|E].
  - assert (r = []) as -> by (destruct r; [reflexivity|cbn in E; lia]).
    exists EOF. unfold ShortRead. cbn. intuition.
  - exists ErrUnexpectedEOF. unfold ShortRead.
    repeat split; auto; try discriminate.
    intros ->. cbn in E. lia.
Qed.

(** [readBytes] from a stream that starts with the requested bytes. *)
Lemma readBytes_app (data rest : list byte) refs n :
  readBytes (Z.of_nat (List.length data))
    {| reader := data ++ rest; references := refs; bytesRead := n |} =
  (Ret data,
   {| reader := rest; references := refs;
      bytesRead := n + Z.of_nat (List.length data) |}).
Proof.
  unfold readBytes, ReadFull. cbn [reader references bytesRead].
  destruct (Z.ltb_spec (Z.of_nat (List.length data)) 0); [lia|].
  rewrite length_app.
  destruct (Z.leb_spec (Z.of_nat (List.length data))
              (Z.of_nat (List.length data + List.length rest))); [|lia].
  rewrite Nat2Z.id, firstn_app, Nat.sub_diag, firstn_all, firstn_O, app_nil_r.
  rewrite skipn_app, Nat.sub_diag, skipn_all. reflexivity.
Qed.

Lemma readBytes_spec (len : Z) (p : Parser) :
  wp (readBytes len) (readBytes_outcome len p) p.
Proof.
  unfold wp, readBytes.
  destruct (Z.ltb_spec len 0) as [Hneg|Hpos]; cbn [fst snd].
  - now constructor.
  - destruct (ReadFull_cases (reader p) len Hpos) as [[Hle ->]|(Hlt & e & He & -> & _)];
      cbn [fst snd].
    + apply rb_full with (data := firstn (Z.to_nat len) (reader p)).
      * symmetry. apply firstn_skipn.
      * rewrite length_firstn. lia.
    + rewrite Nat2Z.id, skipn_all. now constructor.
Qed.

(** ** Relations that every step of the decoder respects *)

Section Preserves.
Context {S : Type} (R : S -> S -> Prop).
Hypothesis R_refl : forall s, R s s.
Hypothesis R_trans : forall s1 s2 s3, R s1 s2 -> R s2 s3 -> R s1 s3.

Lemma preserves_ret {A} (a : A) : preserves R (ret a).
Proof. intros s. apply R_refl. Qed.

Lemma preserves_panic {A} x : preserves R (@panic S A x).
Proof. intros s. apply R_refl. Qed.

Lemma preserves_outOfFuel {A} : preserves R (@outOfFuel S A).
Proof. intros s. apply R_refl. Qed.

Lemma preserves_index0 data : preserves R (@index0 S data).
Proof. destruct data; intros s; apply R_refl. Qed.

Lemma preserves_bind {A B} (m : M S A) (k : A -> M S B) :
  preserves R m -> (forall a, preserves R (k a)) -> preserves R (bind m k).
Proof.
  intros Hm Hk s. unfold bind.
  specialize (Hm s). destruct (m s) as [[a|x|] s']; cbn in *; auto.
  eapply R_trans; [exact Hm|apply Hk].
Qed.
End Preserves.

Section PreservesParser.
Variable R : Parser -> Parser -> Prop.
Hypothesis R_refl : forall p, R p p.
Hypothesis R_trans : forall p1 p2 p3, R p1 p2 -> R p2 p3 -> R p1 p3.
Hypothesis R_readBytes : forall len, preserves R (readBytes len).
Hypothesis R_register :
  forall v p, R p {| reader := reader p;
                     references := (references p ++ [v])%list;
                     bytesRead := bytesRead p |}.

Lemma onParser_refl f : onParser R f f.
Proof. apply R_refl. Qed.

Lemma onParser_trans f1 f2 f3 :
  onParser R f1 f2 -> onParser R f2 f3 -> onParser R f1 f3.
Proof. unfold onParser. eauto. Qed.

Lemma preserves_liftP {A} (m : M Parser A) :
  preserves R m -> preserves (onParser R) (liftP m).
Proof.
  intros Hm f. unfold onParser, liftP.
  specialize (Hm (snd f)). destruct (m (snd f)); cbn in *; auto.
Qed.

Lemma preserves_call body init :
  preserves (onParser R) body -> preserves R (call body init).
Proof.
  intros Hb p. unfold call. specialize (Hb (init, p)). unfold onParser in Hb.
  destruct (body (init, p)) as [[a|x|] [v p']]; cbn in *; auto.
Qed.

Lemma preserves_getValue : preserves (onParser R) getValue.
Proof. intros f. apply R_refl. Qed.

Lemma preserves_setValue x : preserves (onParser R) (setValue x).
Proof. intros [[m n y] p]. apply R_refl. Qed.

Lemma preserves_setMarker x : preserves (onParser R) (setMarker x).
Proof. intros [[m n y] p]. apply R_refl. Qed.

Lemma preserves_setName x : preserves (onParser R) (setName x).
Proof. intros [[m n y] p]. apply R_refl. Qed.

Lemma preserves_register : preserves (onParser R) register.
Proof. intros [v p]. apply R_register. Qed.

Lemma preserves_getReferences : preserves R getReferences.
Proof. intros p. apply R_refl. Qed.

Ltac pres :=
  repeat first
    [ assumption
    | apply (preserves_bind R R_trans)
    | apply (preserves_bind (onParser R) onParser_trans)
    | apply (preserves_ret R R_refl)
    | apply (preserves_ret (onParser R) onParser_refl)
    | apply (preserves_panic R R_refl)
    | apply (preserves_panic (onParser R) onParser_refl)
    | apply (preserves_outOfFuel R R_refl)
    | apply (preserves_outOfFuel (onParser R) onParser_refl)
    | apply (preserves_index0 R R_refl)
    | apply (preserves_index0 (onParser R) onParser_refl)
    | apply preserves_liftP
    | apply preserves_call
    | apply preserves_getValue
    | apply preserves_setValue
    | apply preserves_setMarker
    | apply preserves_setName
    | apply preserves_register
    | apply preserves_getReferences
    | apply R_readBytes
    | match goal with
      | |- forall _, _ => intro
      | |- preserves _ (if ?c then _ else _) => destruct c
      | |- preserves _ (match ?x with _ => _ end) => destruct x
      | H : _ |- _ => apply H
      end ].

Lemma preserves_readDouble : preserves R readDouble.
Proof. unfold readDouble. pres. Qed.

Lemma preserves_readString marker : preserves R (readString marker).
Proof. unfold readString. pres. Qed.

Lemma preserves_forLoop n body :
  preserves R body -> forall vals, preserves R (forLoop n body vals).
Proof.
  intros Hb. induction n as [|n IH]; intros vals; cbn [forLoop]; pres.
Qed.

Lemma preserves_parseValue_body parseProperties parseValue :
  preserves R parseProperties ->
  preserves (onParser R) parseValue ->
  preserves (onParser R) (parseValue_body parseProperties parseValue).
Proof.
  intros Hpp Hpv. unfold parseValue_body.
  apply (preserves_bind (onParser R) onParser_trans);
    [apply preserves_getValue|].
  intros value. destruct (v_Marker value); pres;
    try apply preserves_readDouble; try apply preserves_readString.
  apply preserves_forLoop. pres.
Qed.

Lemma preserves_parseProperties_body parseValue continue properties :
  preserves (onParser R) parseValue ->
  (forall l, preserves R (continue l)) ->
  preserves R (parseProperties_body parseValue continue properties).
Proof.
  intros Hpv Hc. unfold parseProperties_body.
  apply (preserves_bind R R_trans); [apply preserves_readString|].
  pres.
Qed.

Lemma preserves_decoder fuel :
  preserves (onParser R) (parseValue fuel) /\
  forall properties, preserves R (parseProperties_loop fuel properties).
Proof.
  induction fuel as [|fuel [IHv IHp]]; cbn [parseValue parseProperties_loop].
  - split; intros; pres.
  - split; intros.
    + apply preserves_parseValue_body; auto.
    + apply preserves_parseProperties_body; auto.
Qed.

Lemma preserves_Parse_fuel fuel p res p' :
  Parse_fuel fuel p = Some (res, p') -> R p p'.
Proof.
  unfold Parse_fuel. intros H.
  assert (H1 : preserves R (data <- readBytes 1 ;; index0 data)) by pres.
  specialize (H1 p).
  destruct ((data <- readBytes 1 ;; index0 data) p) as [[marker|x|] p1];
    cbn in H1; try discriminate.
  - pose proof (proj1 (preserves_decoder fuel) (newValue marker "", p1)) as H2.
    unfold onParser in H2.
    destruct (parseValue fuel (newValue marker "", p1)) as [[u|x|] [v p2]];
      cbn in H2; inversion H; subst; eauto.
  - inversion H; subst; auto.
Qed.
End PreservesParser.

(** ** The parser only moves forward *)

Lemma extends_refl p : extends p p.
Proof.
  exists [], []. cbn. rewrite app_nil_r. repeat split; lia.
Qed.

Lemma extends_trans p1 p2 p3 : extends p1 p2 -> extends p2 p3 -> extends p1 p3.
Proof.
  intros (t1 & a1 & Hr1 & Hb1 & Hf1) (t2 & a2 & Hr2 & Hb2 & Hf2).
  exists (t1 ++ t2)%list, (a1 ++ a2)%list.
  rewrite Hr1, Hr2, Hb2, Hb1, Hf2, Hf1, !app_assoc, length_app.
  repeat split; lia.
Qed.

Lemma extends_readBytes len : preserves extends (readBytes len).
Proof.
  intros p. destruct (readBytes len p) as [r p'] eqn:E.
  pose proof (wp_eq _ _ _ _ E _ (readBytes_spec len p)) as H. cbn [snd].
  destruct H as [Hneg|data rest Hr Hl|e Hlt He].
  - apply extends_refl.
  - exists data, []. cbn. rewrite app_nil_r. repeat split; auto. lia.
  - exists (reader p), []. cbn. rewrite !app_nil_r. repeat split; auto.
Qed.

Lemma extends_register v p :
  extends p {| reader := reader p;
               references := (references p ++ [v])%list;
               bytesRead := bytesRead p |}.
Proof. exists [], [v]. cbn. repeat split; lia. Qed.

Lemma extends_length p p' :
  extends p p' -> (List.length (reader p') <= List.length (reader p))%nat.
Proof.
  intros (t & a & Hr & _). rewrite Hr, length_app. lia.
Qed.

Lemma extends_consumed p p' :
  extends p p' ->
  bytesRead p' =
  bytesRead p + (Z.of_nat (List.length (reader p))
                 - Z.of_nat (List.length (reader p'))).
Proof.
  intros (t & a & Hr & Hb & _). rewrite Hr, Hb, length_app. lia.
Qed.

Lemma extends_readString marker : preserves extends (readString marker).
Proof.
  apply preserves_readString;
    [apply extends_refl|apply extends_trans|apply extends_readBytes].
Qed.

Lemma extends_decoder fuel :
  preserves (onParser extends) (parseValue fuel) /\
  forall properties, preserves extends (parseProperties_loop fuel properties).
Proof.
  apply preserves_decoder;
    [ apply extends_refl | apply extends_trans | apply extends_readBytes
    | apply extends_register ].
Qed.

Lemma extends_parseValue fuel v p :
  extends p (snd (snd (parseValue fuel (v, p)))).
Proof. apply (proj1 (extends_decoder fuel) (v, p)). Qed.

Lemma extends_Parse_fuel fuel p res p' :
  Parse_fuel fuel p = Some (res, p') -> extends p p'.
Proof.
  apply (preserves_Parse_fuel extends extends_refl extends_trans
           extends_readBytes extends_register).
Qed.

(** ** The fuel of [Parse] suffices *)

Lemma terminates_bind {S A B} (m : M S A) (k : A -> M S B) s :
  terminates m s ->
  (forall a s', m s = (Ret a, s') -> terminates (k a) s') ->
  terminates (bind m k) s.
Proof.
  unfold terminates, bind. intros Hm Hk.
  destruct (m s) as [[a|x|] s']; cbn in *; auto; discriminate.
Qed.

Lemma total_terminates {S A} (m : M S A) s : total m -> terminates m s.
Proof. intros H. apply H. Qed.

Lemma total_bind {S A B} (m : M S A) (k : A -> M S B) :
  total m -> (forall a, total (k a)) -> total (bind m k).
Proof. intros Hm Hk s. apply terminates_bind; auto. intros; apply Hk. Qed.

Lemma total_ret {S A} (a : A) : total (@ret S A a).
Proof. intros s. discriminate. Qed.

Lemma total_panic {S A} x : total (@panic S A x).
Proof. intros s. discriminate. Qed.

Lemma total_index0 {S} data : total (@index0 S data).
Proof. destruct data; intros s; discriminate. Qed.

Lemma terminates_liftP {A} (m : M Parser A) f :
  terminates m (snd f) -> terminates (liftP m) f.
Proof.
  unfold terminates, liftP. destruct (m (snd f)); cbn; auto.
Qed.

Lemma total_liftP {A} (m : M Parser A) : total m -> total (liftP m).
Proof. intros H f. apply terminates_liftP, H. Qed.

Lemma total_readBytes len : total (readBytes len).
Proof.
  intros p. unfold terminates.
  destruct (readBytes len p) as [r p'] eqn:E.
  destruct (wp_eq _ _ _ _ E _ (readBytes_spec len p)); discriminate.
Qed.

Lemma total_getValue : total getValue.
Proof. intros f. discriminate. Qed.

Lemma total_setValue x : total (setValue x).
Proof. intros [[m n y] p]. discriminate. Qed.

Lemma total_setMarker x : total (setMarker x).
Proof. intros [[m n y] p]. discriminate. Qed.

Lemma total_setName x : total (setName x).
Proof. intros [[m n y] p]. discriminate. Qed.

Lemma total_register : total register.
Proof. intros f. discriminate. Qed.

Lemma total_getReferences : total getReferences.
Proof. intros p. discriminate. Qed.

Ltac total_step :=
  first
    [ apply total_bind | apply total_ret | apply total_panic
    | apply total_index0 | apply total_liftP | apply total_readBytes
    | apply total_getValue | apply total_setValue | apply total_setMarker
    | apply total_setName | apply total_register | apply total_getReferences
    | match goal with
      | |- forall _, _ => intro
      | |- total (if ?c then _ else _) => destruct c
      | |- total (match ?x with _ => _ end) => destruct x
      end ].

Lemma total_readDouble : total readDouble.
Proof. unfold readDouble. repeat total_step. Qed.

Lemma total_readString marker : total (readString marker).
Proof. unfold readString. repeat total_step. Qed.

(** Inversion of the steps that return. *)

Lemma liftP_eq {A} (m : M Parser A) f r f' :
  liftP m f = (r, f') -> m (snd f) = (r, snd f') /\ fst f' = fst f.
Proof.
  unfold liftP. destruct (m (snd f)) as [r0 p0].
  intros H; inversion H; subst; auto.
Qed.

Lemma bind_Ret {S A B} (m : M S A) (k : A -> M S B) s b s' :
  bind m k s = (Ret b, s') ->
  exists a s1, m s = (Ret a, s1) /\ k a s1 = (Ret b, s').
Proof.
  unfold bind. destruct (m s) as [[a|x|] s1]; try discriminate. eauto.
Qed.

Lemma readBytes_Ret len p data p' :
  readBytes len p = (Ret data, p') ->
  reader p = (data ++ reader p')%list /\
  Z.of_nat (List.length data) = len /\
  references p' = references p /\
  bytesRead p' = bytesRead p + len.
Proof.
  intros E. pose proof (wp_eq _ _ _ _ E _ (readBytes_spec len p)) as H.
  inversion H; subst; cbn; auto.
Qed.

Lemma index0_Ret {S} data b (s s' : S) :
  index0 data s = (Ret b, s') -> s' = s /\ exists tl, data = b :: tl.
Proof.
  destruct data; cbn; intros H; inversion H; subst; eauto.
Qed.

Lemma preserves_eq {S A} (R : S -> S -> Prop) (m : M S A) s r s' :
  preserves R m -> m s = (r, s') -> R s s'.
Proof. intros H E. specialize (H s). rewrite E in H. exact H. Qed.

Lemma readString_String_Ret p r p' :
  readString String p = (Ret r, p') ->
  (List.length (reader p') + 2 <= List.length (reader p))%nat.
Proof.
  unfold readString. cbn [Byte.eqb]. intros E.
  apply bind_Ret in E as (n & p1 & E1 & E2).
  apply bind_Ret in E1 as (d & p2 & E1 & E3).
  apply readBytes_Ret in E1 as (Hr & Hl & _).
  inversion E3; subst p2; clear E3.
  apply bind_Ret in E2 as (d2 & p3 & E2 & E4).
  inversion E4; subst; clear E4.
  apply (preserves_eq extends) in E2; [|apply extends_readBytes].
  apply extends_length in E2. rewrite Hr, length_app. lia.
Qed.

Lemma forLoop_terminates (L : nat) body :
  preserves extends body ->
  (forall p, (List.length (reader p) <= L)%nat -> terminates body p) ->
  forall n vals p,
    (List.length (reader p) <= L)%nat -> terminates (forLoop n body vals) p.
Proof.
  intros Hext Hb. induction n as [|n IH]; intros vals p Hp; cbn [forLoop].
  - apply total_ret.
  - apply terminates_bind; [auto|].
    intros a p' E. apply IH.
    apply (preserves_eq extends) in E; [|assumption].
    apply extends_length in E. lia.
Qed.

Lemma call_terminates body init p :
  terminates body (init, p) -> terminates (call body init) p.
Proof.
  unfold terminates, call.
  destruct (body (init, p)) as [[a|x|] [v p']]; cbn; auto; discriminate.
Qed.

(** The keyed containers: some bytes are read, then the property list. *)
Lemma container_terminates {A} (L : nat) (pre : M Frame A) pp f :
  total pre ->
  preserves (onParser extends) pre ->
  (forall p, (List.length (reader p) <= L)%nat -> terminates pp p) ->
  (List.length (reader (snd f)) <= L)%nat ->
  terminates
    (pre ;; properties <- liftP pp ;; setValue (values properties) ;; register)
    f.
Proof.
  intros Ht Hext Hpp Hf.
  apply terminates_bind; [apply Ht|].
  intros a f' E.
  apply (preserves_eq (onParser extends)) in E; [|assumption].
  apply extends_length in E.
  apply terminates_bind.
  - apply terminates_liftP, Hpp. lia.
  - intros; repeat total_step.
Qed.

Lemma parseValue_body_terminates (L : nat) pp pv :
  (forall p, (List.length (reader p) <= L)%nat -> terminates pp p) ->
  (forall f, (List.length (reader (snd f)) < L)%nat -> terminates pv f) ->
  preserves (onParser extends) pv ->
  forall f,
    (List.length (reader (snd f)) <= L)%nat ->
    terminates (parseValue_body pp pv) f.
Proof.
  intros Hpp Hpv Hext f Hf. unfold parseValue_body.
  apply terminates_bind; [apply total_getValue|].
  intros value f0 E. inversion E; subst f0; clear E.
  destruct (v_Marker (fst f));
    try (apply total_terminates; repeat total_step;
         auto using total_readDouble, total_readString; fail).
  - (* Object *)
    apply terminates_bind.
    + apply terminates_liftP, Hpp, Hf.
    + intros; repeat total_step.
  - (* ECMAArray *)
    apply container_terminates with (L := L); auto.
    + repeat total_step.
    + apply preserves_liftP, extends_readBytes.
  - (* StrictArray *)
    apply terminates_bind; [repeat total_step|].
    intros data f1 E1. apply liftP_eq in E1 as [E1 _].
    apply readBytes_Ret in E1 as (Hr & Hl & _).
    apply terminates_bind; [repeat total_step|].
    intros data1 f2 E2. apply liftP_eq in E2 as [E2 _].
    apply (preserves_eq extends) in E2; [|apply extends_readBytes].
    apply extends_length in E2.
    apply terminates_bind; [repeat total_step|].
    intros arrayMarker f3 E3. apply index0_Ret in E3 as [-> _].
    assert (Hlt : (List.length (reader (snd f2)) < L)%nat).
    { rewrite Hr, length_app in Hf. lia. }
    apply terminates_bind; [|intros; repeat total_step].
    apply terminates_liftP.
    apply forLoop_terminates with (L := List.length (reader (snd f2))); auto.
    * apply preserves_call. exact Hext.
    * intros p Hp. apply call_terminates, Hpv. cbn. lia.
  - (* TypedObject *)
    apply terminates_bind; [repeat total_step; apply total_readString|].
    intros r f1 E1.
    apply (preserves_eq (onParser extends)) in E1;
      [|apply preserves_liftP, extends_readString].
    apply extends_length in E1.
    apply container_terminates with (L := L); auto.
    + repeat total_step.
    + apply preserves_setName, extends_refl.
    + lia.
Qed.

Lemma parseProperties_body_terminates (L : nat) pv continue :
  (forall f, (List.length (reader (snd f)) + 2 <= L)%nat -> terminates pv f) ->
  preserves (onParser extends) pv ->
  (forall l p, (List.length (reader p) + 2 <= L)%nat ->
               terminates (continue l) p) ->
  forall properties p,
    (List.length (reader p) <= L)%nat ->
    terminates (parseProperties_body pv continue properties) p.
Proof.
  intros Hpv Hext Hc properties p Hp. unfold parseProperties_body.
  apply terminates_bind; [apply total_readString|].
  intros [name nameLength] p1 E1. apply readString_String_Ret in E1.
  destruct (nameLength =? 0).
  - apply total_terminates. repeat total_step.
  - apply terminates_bind; [apply total_readBytes|].
    intros data p2 E2.
    apply (preserves_eq extends) in E2; [|apply extends_readBytes].
    apply extends_length in E2.
    apply terminates_bind; [apply total_index0|].
    intros marker p3 E3. apply index0_Ret in E3 as [-> _].
    apply terminates_bind.
    + apply call_terminates, Hpv. cbn. lia.
    + intros property p4 E4.
      apply (preserves_eq extends) in E4; [|apply preserves_call, Hext].
      apply extends_length in E4. apply Hc. lia.
Qed.

Lemma decoder_terminates fuel :
  (forall f, (List.length (reader (snd f)) + 2 <= fuel)%nat ->
             terminates (parseValue fuel) f) /\
  (forall properties p,
      (List.length (reader p) + 1 <= fuel)%nat ->
      terminates (parseProperties_loop fuel properties) p).
Proof.
  induction fuel as [|fuel [IHv IHp]]; [split; intros; lia|].
  cbn [parseValue parseProperties_loop]. split.
  - intros f Hf.
    apply parseValue_body_terminates with (L := List.length (reader (snd f)));
      auto.
    + intros p Hp. apply IHp. lia.
    + intros f' Hf'. apply IHv. lia.
    + apply (proj1 (extends_decoder fuel)).
  - intros properties p Hp.
    apply parseProperties_body_terminates with (L := List.length (reader p));
      auto.
    + intros f Hf. apply IHv. lia.
    + apply (proj1 (extends_decoder fuel)).
    + intros l p' Hp'. apply IHp. lia.
Qed.

(** [Parse] is defined on every parser: its fuel is never exhausted. *)
Lemma Parse_total p : exists res p', Parse p = Some (res, p').
Proof.
  unfold Parse, Parse_fuel.
  destruct ((data <- readBytes 1 ;; index0 data) p) as [[marker|x|] p1] eqn:E.
  - assert (Hlen : (List.length (reader p1) + 1 <= List.length (reader p))%nat).
    { apply bind_Ret in E as (data & p0 & E0 & E1).
      apply index0_Ret in E1 as [-> _].
      apply readBytes_Ret in E0 as (Hr & Hl & _).
      rewrite Hr, length_app. lia. }
    pose proof (proj1 (decoder_terminates (S (S (List.length (reader p)))))
                  (newValue marker "", p1)) as H.
    unfold terminates in H. cbn [snd] in H.
    destruct (parseValue _ (newValue marker "", p1)) as [[u|x|] [v p2]];
      eauto.
    exfalso. apply H; [lia|reflexivity].
  - eauto.
  - exfalso.
    assert (H : total (data <- readBytes 1 ;; index0 data))
      by (repeat total_step).
    specialize (H p). unfold terminates in H. rewrite E in H. now apply H.
Qed.

(** * Backreferences *)

Lemma readBytes_1 b rest refs n :
  readBytes 1 {| reader := b :: rest; references := refs; bytesRead := n |} =
  (Ret [b], {| reader := rest; references := refs; bytesRead := n + 1 |}).
Proof. exact (readBytes_app [b] rest refs n). Qed.

Lemma readBytes_2 b0 b1 rest refs n :
  readBytes 2
    {| reader := b0 :: b1 :: rest; references := refs; bytesRead := n |} =
  (Ret [b0; b1],
   {| reader := rest; references := refs; bytesRead := n + 2 |}).
Proof. exact (readBytes_app [b0; b1] rest refs n). Qed.

Lemma byteZ_nonneg b : 0 <= byteZ b.
Proof. unfold byteZ. lia. Qed.

Lemma Uint16_nonneg data : 0 <= Uint16 data.
Proof.
  unfold Uint16, at_.
  apply Z.lor_nonneg. split; [|apply Z.shiftl_nonneg]; apply byteZ_nonneg.
Qed.

(** The [Reference] case of [parseValue] once its two index bytes are read. *)
Lemma parseValue_Reference fuel name x b0 b1 rest refs n :
  parseValue (S fuel)
    (mkValue Reference name x,
     {| reader := b0 :: b1 :: rest; references := refs; bytesRead := n |}) =
  let p' := {| reader := rest; references := refs; bytesRead := n + 2 |} in
  if Uint16 [b0; b1] >? Z.of_nat (List.length refs) - 1 then
    (Panic (panicString
       "reference index is greater, than the amount of available reference objects"),
     (mkValue Reference name x, p'))
  else
    match nth_error refs (Z.to_nat (Uint16 [b0; b1])) with
    | Some ref => (Ret tt, (mkValue (v_Marker ref) name (v_Value ref), p'))
    | None =>
        (Panic (panicError (runtimeError "index out of range")),
         (mkValue Reference name x, p'))
    end.
Proof.
  cbn [parseValue]. unfold parseValue_body, bind, getValue, liftP.
  cbn [fst snd v_Marker]. rewrite readBytes_2.
  unfold getReferences. cbn [fst snd references].
  destruct (_ >? _); [reflexivity|].
  destruct (nth_error _ _); reflexivity.
Qed.

(** C4. Decoding a Reference-tagged value whose two-byte big-endian index is
    greater than or equal to the current length of the reference table fails
    with [InvalidReference]: the decoder panics, which [Parse] recovers, and
    it neither runs on nor exhausts its fuel.  When the index is strictly
    below the length of the table the value is decoded and no failure
    occurs. *)
Theorem C4_reference_index_bounds fuel name x b0 b1 rest refs n :
  let f := (mkValue Reference name x,
            {| reader := b0 :: b1 :: rest; references := refs;
               bytesRead := n |}) in
  let index := Uint16 [b0; b1] in
  (Z.of_nat (List.length refs) <= index ->
   exists r, fst (parseValue (S fuel) f) = Panic r /\
             recovered r = InvalidReference) /\
  (index < Z.of_nat (List.length refs) ->
   fst (parseValue (S fuel) f) = Ret tt).
Proof.
  intros f index. subst f. rewrite parseValue_Reference. fold index.
  cbn zeta. split; intros H.
  - destruct (Z.gtb_spec index (Z.of_nat (List.length refs) - 1)); [|lia].
    eexists. split; reflexivity.
  - destruct (Z.gtb_spec index (Z.of_nat (List.length refs) - 1)); [lia|].
    destruct (nth_error refs (Z.to_nat index)) eqn:E; [reflexivity|].
    apply nth_error_None in E.
    pose proof (Uint16_nonneg [b0; b1]). fold index in H1. lia.
Qed.

Lemma C4_reference_index_bounds_witness :
  (exists r,
      fst (parseValue 1
             (mkValue Reference "" nil_,
              {| reader := [x00; x01]; references := [newValue Object ""];
                 bytesRead := 1 |})) = Panic r /\
      recovered r = InvalidReference) /\
  fst (parseValue 1
         (mkValue Reference "" nil_,
          {| reader := [x00; x00]; references := [newValue Object ""];
             bytesRead := 1 |})) = Ret tt.
Proof.
  split.
  - apply (proj1 (C4_reference_index_bounds
                    0 "" nil_ x00 x01 [] [newValue Object ""] 1)).
    vm_compute. discriminate.
  - apply (proj2 (C4_reference_index_bounds
                    0 "" nil_ x00 x00 [] [newValue Object ""] 1)).
    reflexivity.
Defined.

(** C5. When a Reference-tagged value with a valid index [i] is decoded, the
    resulting value takes the tag and the payload of entry [i] of the
    reference table, so its payload equals, as a tree, that of the complex
    value registered at [i]; it keeps its own name. *)
Theorem C5_reference_resolves fuel name x b0 b1 rest refs n ref :
  nth_error refs (Z.to_nat (Uint16 [b0; b1])) = Some ref ->
  parseValue (S fuel)
    (mkValue Reference name x,
     {| reader := b0 :: b1 :: rest; references := refs; bytesRead := n |}) =
  (Ret tt,
   (mkValue (v_Marker ref) name (v_Value ref),
    {| reader := rest; references := refs; bytesRead := n + 2 |})).
Proof.
  intros E. rewrite parseValue_Reference. cbn zeta.
  assert (H : (Z.to_nat (Uint16 [b0; b1]) < List.length refs)%nat)
    by (apply nth_error_Some; congruence).
  pose proof (Uint16_nonneg [b0; b1]).
  destruct (Z.gtb_spec (Uint16 [b0; b1]) (Z.of_nat (List.length refs) - 1));
    [lia|].
  rewrite E. reflexivity.
Qed.

Lemma C5_reference_resolves_witness :
  parseValue 1
    (mkValue Reference "b" nil_,
     {| reader := [x00; x01];
        references :=
          [mkValue Object "a" (values []);
           mkValue TypedObject "T"
             (values [mkValue Boolean "flag" (bool_ true)])];
        bytesRead := 30 |}) =
  (Ret tt,
   (mkValue TypedObject "b" (values [mkValue Boolean "flag" (bool_ true)]),
    {| reader := [];
       references :=
         [mkValue Object "a" (values []);
          mkValue TypedObject "T"
            (values [mkValue Boolean "flag" (bool_ true)])];
       bytesRead := 32 |})).
Proof.
  apply (C5_reference_resolves 0 "b" nil_ x00 x01 []
           [mkValue Object "a" (values []);
            mkValue TypedObject "T"
              (values [mkValue Boolean "flag" (bool_ true)])]
           30 (mkValue TypedObject "T"
                 (values [mkValue Boolean "flag" (bool_ true)]))).
  reflexivity.
Defined.

(** * Property lists *)

Lemma byte_eqb_neq (x y : byte) : x <> y -> Byte.eqb x y = false.
Proof.
  intros H. destruct (Byte.eqb x y) eqn:E; [|reflexivity].
  apply Byte.byte_dec_bl in E. contradiction.
Qed.

(** C9. While a property list is decoded, with [properties] accumulated so
    far: if the decoded key has zero length, then when the byte that follows
    is the end-of-list sentinel [ObjectEnd] the list ends successfully with
    [properties], and when it is any other byte decoding fails with
    [MalformedStream]. *)
Theorem C9_zero_length_key fuel properties p name p1 b rest :
  readString String p = (Ret (name, 0), p1) ->
  reader p1 = b :: rest ->
  let p2 := {| reader := rest; references := references p1;
               bytesRead := bytesRead p1 + 1 |} in
  (b = ObjectEnd ->
   parseProperties_loop (S fuel) properties p = (Ret properties, p2)) /\
  (b <> ObjectEnd ->
   exists r, parseProperties_loop (S fuel) properties p = (Panic r, p2) /\
             recovered r = MalformedStream).
Proof.
  intros Hkey Hreader p2.
  cbn [parseProperties_loop]. unfold parseProperties_body, bind.
  rewrite Hkey. cbn [Z.eqb].
  destruct p1 as [rd refs n]. cbn [reader references bytesRead] in *.
  subst rd. rewrite readBytes_1. cbn [index0 ret].
  split; intros Hb.
  - subst b. reflexivity.
  - rewrite (byte_eqb_neq _ _ Hb). eexists. split; reflexivity.
Qed.

Lemma C9_zero_length_key_witness :
  parseProperties_loop 1 [mkValue Null "k" nil_]
    (New [x00; x00; x09; x05]) =
  (Ret [mkValue Null "k" nil_],
   {| reader := [x05]; references := []; bytesRead := 3 |}) /\
  exists r,
    parseProperties_loop 1 [mkValue Null "k" nil_]
      (New [x00; x00; x05; x09]) =
    (Panic r, {| reader := [x09]; references := []; bytesRead := 3 |}) /\
    recovered r = MalformedStream.
Proof.
  split.
  - apply (proj1 (C9_zero_length_key 0 [mkValue Null "k" nil_]
                    (New [x00; x00; x09; x05]) ""%string
                    {| reader := [x09; x05]; references := [];
                       bytesRead := 2 |}
                    x09 [x05] eq_refl eq_refl)).
    reflexivity.
  - apply (proj2 (C9_zero_length_key 0 [mkValue Null "k" nil_]
                    (New [x00; x00; x05; x09]) ""%string
                    {| reader := [x05; x09]; references := [];
                       bytesRead := 2 |}
                    x05 [x09] eq_refl eq_refl)).
    discriminate.
Defined.

(** * What [Parse] returns when it fails *)

Lemma wp_any {S A} (m : M S A) (Q : result A -> S -> Prop) s :
  (forall r s', Q r s') -> wp m Q s.
Proof. unfold wp; auto. Qed.

Lemma wp_preserves {S A} (R : S -> S -> Prop) (m : M S A)
    (Q : result A -> S -> Prop) s :
  preserves R m -> (forall r s', R s s' -> Q r s') -> wp m Q s.
Proof. unfold wp, preserves; auto. Qed.

Lemma untouched_refl v : untouched v v.
Proof. repeat split. Qed.

Ltac wp_frame :=
  repeat first
    [ apply wp_bind
    | apply wp_liftP; apply wp_any; intros [?|?|] ?; cbn [bindQ fst snd]
    | match goal with
      | |- wp (index0 ?d) _ _ => destruct d; unfold wp; cbn
      | |- wp (if ?c then _ else _) _ _ => destruct c
      | |- wp (match ?x with _ => _ end) _ _ => destruct x
      end ].

Lemma parseValue_body_panic pp pv v p :
  wp (parseValue_body pp pv)
     (fun r f' => forall x, r = Panic x -> untouched v (fst f')) (v, p).
Proof.
  destruct v as [m n y]. unfold parseValue_body.
  apply wp_bind. unfold wp at 1, getValue. cbn [fst snd bindQ v_Marker].
  destruct m; wp_frame;
    try (unfold wp; cbn; intros; solve [discriminate | apply untouched_refl]);
    try (unfold wp; cbn; intros; repeat split; cbn; congruence).
Qed.

Lemma parseValue_panic fuel v p :
  wp (parseValue fuel)
     (fun r f' => forall x, r = Panic x -> untouched v (fst f')) (v, p).
Proof.
  destruct fuel as [|fuel]; cbn [parseValue].
  - unfold wp; cbn. discriminate.
  - apply parseValue_body_panic.
Qed.

(** The leading tag byte. *)
Lemma read_marker_cases p :
  (exists marker rest,
      reader p = marker :: rest /\
      (data <- readBytes 1 ;; index0 data) p =
      (Ret marker,
       {| reader := rest; references := references p;
          bytesRead := bytesRead p + 1 |})) \/
  (reader p = [] /\
   (data <- readBytes 1 ;; index0 data) p = (Panic (panicError EOF), p)).
Proof.
  destruct p as [[|b rest] refs n]; [right|left].
  - split; [reflexivity|].
    unfold bind, readBytes, ReadFull. cbn. rewrite Z.add_0_r. reflexivity.
  - exists b, rest. split; [reflexivity|].
    unfold bind. rewrite readBytes_1. reflexivity.
Qed.

Lemma Parse_fuel_inv fuel p res p' :
  Parse_fuel fuel p = Some (res, p') -> Parse_outcome fuel p res p'.
Proof.
  unfold Parse_fuel.
  destruct (read_marker_cases p) as [(marker & rest & Hr & ->)|[Hr ->]].
  - destruct (parseValue fuel _) as [[[]|x|] [v p2]] eqn:E;
      intros H; inversion H; subst; econstructor; eauto.
  - intros H; inversion H; subst. now constructor.
Qed.

(** C1, as the code has it.  When [Parse] fails, the byte count it returns is
    0: the named result [bytesRead] is assigned only by the final [return].
    The number of bytes consumed before the failure is what the parser's own
    counter has advanced by.  In particular, on the bytes [07 00 00] with an
    empty reference table [Parse] fails with [InvalidReference], returns the
    byte count 0, and leaves the parser's counter at 3. *)
Theorem C1_failure_byte_count :
  (forall p res p',
      Parse p = Some (res, p') ->
      failed res ->
      r_bytesRead res = 0 /\
      exists taken,
        reader p = (taken ++ reader p')%list /\
        bytesRead p' = bytesRead p + Z.of_nat (List.length taken)) /\
  Parse (New [x07; x00; x00]) =
  Some (mkResult (Some (mkValue Reference "" nil_)) 0 (Some InvalidReference),
        {| reader := []; references := []; bytesRead := 3 |}).
Proof.
  split; [|reflexivity].
  intros p res p' HP Hfail. split.
  - apply Parse_fuel_inv in HP. unfold failed in Hfail.
    destruct HP; cbn in *; congruence.
  - apply extends_Parse_fuel in HP. destruct HP as (taken & added & H1 & H2 & _).
    eauto.
Qed.

Lemma C1_failure_byte_count_witness :
  r_bytesRead (mkResult (Some (mkValue Unsupported "" nil_)) 0
                 (Some (UnsupportedType Unsupported))) = 0 /\
  exists taken,
    reader (New [x0d; x01]) =
    (taken ++ reader {| reader := [x01]; references := []; bytesRead := 1 |})%list /\
    bytesRead {| reader := [x01]; references := []; bytesRead := 1 |} =
    bytesRead (New [x0d; x01]) + Z.of_nat (List.length taken).
Proof.
  apply (proj1 C1_failure_byte_count (New [x0d; x01])).
  - reflexivity.
  - discriminate.
Defined.

(** C1 as stated fails on its own scenario: all three bytes are consumed, the
    error is [InvalidReference], and the byte count returned is not 3. *)
Lemma C1_counterexample :
  exists res p',
    Parse (New [x07; x00; x00]) = Some (res, p') /\
    r_err res = Some InvalidReference /\
    reader p' = [] /\
    bytesRead p' = 3 /\
    r_bytesRead res <> 3.
Proof.
  do 2 eexists. split; [reflexivity|]. cbn. repeat split. discriminate.
Qed.

(** C2, as the code has it.  When [Parse] fails, the value it returns is nil
    only if the leading tag byte could not be read.  Otherwise it is the
    value allocated for the leading tag: non-nil, carrying that tag, with an
    empty payload (no decoded child is attached to it) and with an empty
    name, except that a [TypedObject] may already carry its class name. *)
Theorem C2_failure_value p res p' :
  Parse p = Some (res, p') ->
  failed res ->
  (reader p = [] /\ r_value res = None) \/
  (exists marker rest name,
      reader p = marker :: rest /\
      r_value res = Some (mkValue marker name nil_) /\
      (marker <> TypedObject -> name = ""%string)).
Proof.
  intros HP Hfail. apply Parse_fuel_inv in HP.
  destruct HP as [Hr|marker rest x v p' Hr E|marker rest v p' Hr E].
  - left. auto.
  - right.
    pose proof (wp_eq _ _ _ _ E _
                  (parseValue_panic _ (newValue marker "") _)) as H.
    destruct (H x eq_refl) as (Hm & Hv & Hn). destruct v as [m n y].
    cbn in Hm, Hv, Hn. subst m y.
    exists marker, rest, n. auto.
  - exfalso. apply Hfail. reflexivity.
Qed.

Lemma C2_failure_value_witness :
  (reader (New [x10; x00; x01; x54; x00]) = [] /\
   r_value (mkResult (Some (mkValue TypedObject "T" nil_)) 0
              (Some ErrUnexpectedEOF)) = None) \/
  (exists marker rest name,
      reader (New [x10; x00; x01; x54; x00]) = marker :: rest /\
      r_value (mkResult (Some (mkValue TypedObject "T" nil_)) 0
                 (Some ErrUnexpectedEOF)) =
      Some (mkValue marker name nil_) /\
      (marker <> TypedObject -> name = ""%string)).
Proof.
  apply (C2_failure_value (New [x10; x00; x01; x54; x00]) _
           {| reader := []; references := []; bytesRead := 5 |}).
  - reflexivity.
  - discriminate.
Defined.

(** C2 as stated fails: on the bytes [07 00 00] [Parse] fails and the value
    it returns is neither nil nor a zero [Value]. *)
Lemma C2_counterexample :
  exists res p',
    Parse (New [x07; x00; x00]) = Some (res, p') /\
    failed res /\
    r_value res <> None /\
    r_value res <> Some (mkValue x00 "" nil_).
Proof.
  do 2 eexists. split; [reflexivity|]. cbn. repeat split; discriminate.
Qed.

(** * The consumed-byte counter *)

Lemma readBytes_partial len p :
  0 < Z.of_nat (List.length (reader p)) < len ->
  readBytes len p =
  (Panic (panicError ErrUnexpectedEOF),
   {| reader := []; references := references p;
      bytesRead := bytesRead p + Z.of_nat (List.length (reader p)) |}).
Proof.
  intros H. unfold readBytes, ReadFull.
  destruct (Z.ltb_spec len 0); [lia|].
  destruct (Z.leb_spec len (Z.of_nat (List.length (reader p)))); [lia|].
  destruct (Z.eqb_spec (Z.of_nat (List.length (reader p))) 0); [lia|].
  rewrite Nat2Z.id, skipn_all. reflexivity.
Qed.

(** C10. The parser's consumed-byte counter is never reset.  Every
    [readBytes], whatever its outcome, advances it by exactly the number of
    bytes it took from the stream; a partial read that then fails counts the
    bytes it obtained.  So when [Parse] is called twice on the same parser,
    the byte count returned by a successful second call is the counter
    before the first call plus the bytes consumed by both calls. *)
Theorem C10_counter_is_cumulative :
  (forall len p,
      exists taken,
        reader p = (taken ++ reader (snd (readBytes len p)))%list /\
        bytesRead (snd (readBytes len p)) =
        bytesRead p + Z.of_nat (List.length taken)) /\
  (forall len p,
      0 < Z.of_nat (List.length (reader p)) < len ->
      exists x,
        fst (readBytes len p) = Panic x /\
        reader (snd (readBytes len p)) = [] /\
        bytesRead (snd (readBytes len p)) =
        bytesRead p + Z.of_nat (List.length (reader p))) /\
  (forall p res1 p1 res2 p2,
      Parse p = Some (res1, p1) ->
      Parse p1 = Some (res2, p2) ->
      r_err res2 = None ->
      exists taken1 taken2,
        reader p = (taken1 ++ reader p1)%list /\
        reader p1 = (taken2 ++ reader p2)%list /\
        r_bytesRead res2 =
        bytesRead p + Z.of_nat (List.length taken1)
        + Z.of_nat (List.length taken2)).
Proof.
  split; [|split].
  - intros len p. destruct (extends_readBytes len p) as (t & a & H1 & H2 & _).
    eauto.
  - intros len p H. rewrite (readBytes_partial len p H). cbn. eauto.
  - intros p res1 p1 res2 p2 HP1 HP2 Hok.
    apply extends_Parse_fuel in HP1. destruct HP1 as (t1 & a1 & H1 & H2 & _).
    pose proof (extends_Parse_fuel _ _ _ _ HP2) as (t2 & a2 & H3 & H4 & _).
    exists t1, t2. repeat split; auto.
    apply Parse_fuel_inv in HP2.
    destruct HP2; cbn in *; try discriminate. lia.
Qed.

Lemma C10_counter_is_cumulative_witness :
  (exists x,
      fst (readBytes 8 (New [x3f; x00])) = Panic x /\
      reader (snd (readBytes 8 (New [x3f; x00]))) = [] /\
      bytesRead (snd (readBytes 8 (New [x3f; x00]))) =
      bytesRead (New [x3f; x00])
      + Z.of_nat (List.length (reader (New [x3f; x00])))) /\
  (exists taken1 taken2,
      reader (New [x02; x00; x01; x61; x05]) =
      (taken1 ++ reader {| reader := [x05]; references := [];
                           bytesRead := 4 |})%list /\
      reader {| reader := [x05]; references := []; bytesRead := 4 |} =
      (taken2 ++ reader {| reader := []; references := [];
                           bytesRead := 5 |})%list /\
      r_bytesRead (mkResult (Some (mkValue Null "" nil_)) 5 None) =
      bytesRead (New [x02; x00; x01; x61; x05])
      + Z.of_nat (List.length taken1) + Z.of_nat (List.length taken2)).
Proof.
  split.
  - apply (proj1 (proj2 C10_counter_is_cumulative) 8 (New [x3f; x00])).
    cbn. lia.
  - apply (proj2 (proj2 C10_counter_is_cumulative)
             (New [x02; x00; x01; x61; x05])
             (mkResult (Some (mkValue String "" (string_ "a"))) 4 None)).
    + reflexivity.
    + reflexivity.
    + reflexivity.
Defined.

(** * The reference table across calls *)

(** [Parse] on a stream that starts with a backreference into the table the
    parser already holds. *)
Lemma Parse_Reference p b0 b1 rest ref :
  reader p = Reference :: b0 :: b1 :: rest ->
  nth_error (references p) (Z.to_nat (Uint16 [b0; b1])) = Some ref ->
  Parse p =
  Some (mkResult (Some (mkValue (v_Marker ref) "" (v_Value ref)))
          (bytesRead p + 1 + 2) None,
        {| reader := rest; references := references p;
           bytesRead := bytesRead p + 1 + 2 |}).
Proof.
  intros Hr Hnth. unfold Parse, Parse_fuel.
  destruct p as [rd refs n]. cbn [reader references bytesRead] in *. subst rd.
  unfold bind at 1. rewrite readBytes_1. cbn [index0 ret].
  unfold newValue. rewrite parseValue_Reference. cbn zeta.
  assert (H : (Z.to_nat (Uint16 [b0; b1]) < List.length refs)%nat)
    by (apply nth_error_Some; congruence).
  pose proof (Uint16_nonneg [b0; b1]).
  destruct (Z.gtb_spec (Uint16 [b0; b1]) (Z.of_nat (List.length refs) - 1));
    [lia|].
  rewrite Hnth. reflexivity.
Qed.

(** C3, as the code has it.  The reference table belongs to the parser, not
    to one [Parse] call: [New] creates it empty and nothing clears it.  Every
    [Parse] call starts from the table the parser holds, keeps all its
    entries and only appends to it, so entries registered during one call
    are visible to the next call on the same parser; a backreference decoded
    by a call resolves to the entry at its index even when that entry was
    registered before the call began. *)
Theorem C3_reference_table_persists :
  (forall r, references (New r) = []) /\
  (forall p res p',
      Parse p = Some (res, p') ->
      exists added, references p' = (references p ++ added)%list) /\
  (forall p b0 b1 rest ref,
      reader p = Reference :: b0 :: b1 :: rest ->
      nth_error (references p) (Z.to_nat (Uint16 [b0; b1])) = Some ref ->
      exists res p',
        Parse p = Some (res, p') /\
        r_err res = None /\
        r_value res = Some (mkValue (v_Marker ref) "" (v_Value ref)) /\
        references p' = references p).
Proof.
  split; [reflexivity|split].
  - intros p res p' HP. apply extends_Parse_fuel in HP.
    destruct HP as (t & a & _ & _ & H). eauto.
  - intros p b0 b1 rest ref Hr Hnth.
    rewrite (Parse_Reference p b0 b1 rest ref Hr Hnth).
    do 2 eexists. repeat split.
Qed.

Lemma C3_reference_table_persists_witness :
  (exists added,
      references {| reader := [x07; x00; x00];
                    references := [mkValue Object "" (values [])];
                    bytesRead := 4 |} =
      (references (New [x03; x00; x00; x09; x07; x00; x00]) ++ added)%list) /\
  (exists res p',
      Parse {| reader := [x07; x00; x00];
               references := [mkValue Object "" (values [])];
               bytesRead := 4 |} = Some (res, p') /\
      r_err res = None /\
      r_value res =
      Some (mkValue (v_Marker (mkValue Object "" (values []))) ""
              (v_Value (mkValue Object "" (values [])))) /\
      references p' =
      references {| reader := [x07; x00; x00];
                    references := [mkValue Object "" (values [])];
                    bytesRead := 4 |}).
Proof.
  split.
  - apply (proj1 (proj2 C3_reference_table_persists)
             (New [x03; x00; x00; x09; x07; x00; x00])
             (mkResult (Some (mkValue Object "" (values []))) 4 None)).
    reflexivity.
  - apply (proj2 (proj2 C3_reference_table_persists)
             {| reader := [x07; x00; x00];
                references := [mkValue Object "" (values [])];
                bytesRead := 4 |} x00 x00 []).
    + reflexivity.
    + reflexivity.
Defined.

(** C3 as stated fails: the second [Parse] call on a parser begins with the
    entry registered by the first call, and its backreference resolves to
    it. *)
Lemma C3_counterexample :
  exists res1 p1 res2 p2,
    Parse (New [x03; x00; x00; x09; x07; x00; x00]) = Some (res1, p1) /\
    references p1 = [mkValue Object "" (values [])] /\
    Parse p1 = Some (res2, p2) /\
    r_err res2 = None /\
    r_value res2 = Some (mkValue Object "" (values [])).
Proof.
  do 4 eexists. split; [reflexivity|]. cbn.
  split; [reflexivity|]. split; [reflexivity|]. split; reflexivity.
Qed.

(** * No backreference tag survives decoding *)

Lemma sameRefs_refl p : sameRefs p p.
Proof. reflexivity. Qed.

Lemma sameRefs_trans p1 p2 p3 :
  sameRefs p1 p2 -> sameRefs p2 p3 -> sameRefs p1 p3.
Proof. unfold sameRefs. congruence. Qed.

Lemma sameRefs_readBytes len : preserves sameRefs (readBytes len).
Proof.
  intros p. destruct (readBytes len p) as [r p'] eqn:E.
  destruct (wp_eq _ _ _ _ E _ (readBytes_spec len p)); reflexivity.
Qed.

Lemma sameRefs_readString marker : preserves sameRefs (readString marker).
Proof.
  apply preserves_readString;
    [apply sameRefs_refl|apply sameRefs_trans|apply sameRefs_readBytes].
Qed.

Lemma sameRefs_readDouble : preserves sameRefs readDouble.
Proof.
  apply preserves_readDouble;
    [apply sameRefs_refl|apply sameRefs_trans|apply sameRefs_readBytes].
Qed.

Lemma tableOK_sameRefs p p' : sameRefs p p' -> tableOK p -> tableOK p'.
Proof. unfold sameRefs, tableOK. intros ->. auto. Qed.

Lemma tableOK_register v p :
  tableOK p -> registrable v = true ->
  tableOK {| reader := reader p; references := (references p ++ [v])%list;
             bytesRead := bytesRead p |}.
Proof.
  unfold tableOK. cbn. intros Hp Hv.
  rewrite forallb_app, Hp. cbn. rewrite Hv. reflexivity.
Qed.

Lemma noReference_resolved ref name :
  registrable ref = true ->
  noReference (mkValue (v_Marker ref) name (v_Value ref)) = true.
Proof.
  destruct ref as [m n x]. unfold registrable. cbn.
  intros H. apply andb_prop in H. tauto.
Qed.

Lemma wp_prim {A B} (m : M Parser A) (k : A -> M Frame B) Q v p :
  preserves sameRefs m ->
  tableOK p ->
  (forall x p', tableOK p' -> Q (Panic x) (v, p')) ->
  (forall p', tableOK p' -> Q OutOfFuel (v, p')) ->
  (forall a p', tableOK p' -> wp (k a) Q (v, p')) ->
  wp (bind (liftP m) k) Q (v, p).
Proof.
  intros Hm Hok HP HF HR. apply wp_bind, wp_liftP.
  apply (wp_preserves sameRefs); [assumption|].
  cbn [fst snd]. intros r p' Hs.
  apply (tableOK_sameRefs _ _ Hs) in Hok.
  destruct r; cbn [bindQ]; auto.
Qed.

Section TagsBody.
Variable pp : M Parser (list Value).
Variable pv : M Frame unit.
Hypothesis Hpp : forall p, tableOK p -> wp pp tagsOK_list p.
Hypothesis Hpv :
  forall m n p, tableOK p -> wp pv tagsOK_value (newValue m n, p).

Lemma call_tagsOK m n p :
  tableOK p ->
  wp (call pv (newValue m n))
     (fun r p' => tableOK p' /\ forall v, r = Ret v -> noReference v = true) p.
Proof.
  intros Hok. apply wp_call. eapply wp_mono; [|apply Hpv, Hok].
  intros [[]|x|] [v p'] [H1 H2]; cbn in *; split; auto; try discriminate.
  intros v' E. inversion E; subst. auto.
Qed.

Lemma forLoop_tagsOK m n count :
  forall vals p,
    tableOK p -> forallb noReference vals = true ->
    wp (forLoop count (call pv (newValue m n)) vals) tagsOK_list p.
Proof.
  induction count as [|count IH]; intros vals p Hok Hvals; cbn [forLoop].
  - split; [assumption|]. intros l E. inversion E; subst. assumption.
  - apply wp_bind. eapply wp_mono; [|apply call_tagsOK, Hok].
    intros [v|x|] p' [H1 H2]; cbn [bindQ].
    + apply IH; [assumption|].
      rewrite forallb_app, Hvals. cbn. rewrite (H2 v eq_refl). reflexivity.
    + split; [assumption|discriminate].
    + split; [assumption|discriminate].
Qed.

(** The end of the three keyed containers: the property list, the payload,
    the registration. *)
Lemma container_tagsOK m n p :
  complex m = true ->
  tableOK p ->
  wp (properties <- liftP pp ;; setValue (values properties) ;; register)
     tagsOK_value (mkValue m n nil_, p).
Proof.
  intros Hm Hok. apply wp_bind, wp_liftP. cbn [fst snd].
  eapply wp_mono; [|apply Hpp, Hok].
  intros [l|x|] p' [H1 H2]; cbn [bindQ];
    try (split; [assumption|discriminate]).
  specialize (H2 l eq_refl).
  assert (Hno : noReference (mkValue m n (values l)) = true).
  { cbn. rewrite H2, andb_true_r.
    destruct m; try discriminate; reflexivity. }
  unfold wp, bind, setValue, register. cbn. split; [|auto].
  apply tableOK_register; [assumption|].
  unfold registrable. cbn [v_Marker]. rewrite Hm, Hno. reflexivity.
Qed.

Ltac tags_step :=
  first
    [ apply wp_prim;
      [ solve [ apply sameRefs_readBytes | apply sameRefs_readString
              | apply sameRefs_readDouble ]
      | assumption
      | intros; split; [assumption|discriminate]
      | intros; split; [assumption|discriminate]
      | intros ]
    | apply wp_bind;
      match goal with
      | |- wp (index0 ?d) _ _ => destruct d; unfold wp at 1; cbn [bindQ index0 ret panic fst snd]
      end
    | match goal with
      | |- wp (if ?c then _ else _) _ _ => destruct c
      | |- wp (match ?x with _ => _ end) _ _ => destruct x
      end
    | (unfold wp, bind, setValue, panic, ret; cbn;
       split; [assumption|first [discriminate|reflexivity|intros; discriminate]]) ].

Lemma parseValue_body_tagsOK m n p :
  tableOK p ->
  wp (parseValue_body pp pv) tagsOK_value (newValue m n, p).
Proof.
  intros Hok. unfold parseValue_body, newValue.
  apply wp_bind. unfold wp at 1, getValue. cbn [fst snd bindQ v_Marker].
  destruct m; try (repeat tags_step; fail).
  - (* Object *)
    apply container_tagsOK; auto.
  - (* Reference *)
    tags_step. cbn zeta.
    apply wp_bind. unfold wp at 1, liftP, getReferences.
    cbn [fst snd bindQ].
    destruct (_ >? _); [repeat tags_step|].
    destruct (nth_error _ _) as [ref|] eqn:E; [|repeat tags_step].
    apply nth_error_In in E.
    assert (Href : registrable ref = true).
    { unfold tableOK in *.
      match goal with
      | H : forallb registrable (references ?q) = true,
        E : In ref (references ?q) |- _ =>
          rewrite forallb_forall in H; auto
      end. }
    unfold wp, bind, setValue, setMarker. cbn. split; [assumption|].
    intros _. apply (noReference_resolved ref n Href).
  - (* ECMAArray *)
    tags_step. apply container_tagsOK; auto.
  - (* StrictArray *)
    do 3 tags_step.
    + split; [assumption|discriminate].
    + apply wp_bind, wp_liftP. cbn [fst snd].
      eapply wp_mono; [|apply forLoop_tagsOK; [eassumption|reflexivity]].
      intros [l|x|] q [H1 H2]; cbn [bindQ];
        try (split; [assumption|discriminate]).
      unfold wp, setValue. cbn. split; [assumption|].
      intros _. apply (H2 l eq_refl).
  - (* TypedObject *)
    tags_step.
    apply wp_bind. unfold wp at 1, setName. cbn [fst snd bindQ].
    apply container_tagsOK; auto.
Qed.

End TagsBody.

Lemma wp_primP {A B} (m : M Parser A) (k : A -> M Parser B) Q p :
  preserves sameRefs m ->
  tableOK p ->
  (forall x p', tableOK p' -> Q (Panic x) p') ->
  (forall p', tableOK p' -> Q OutOfFuel p') ->
  (forall a p', tableOK p' -> wp (k a) Q p') ->
  wp (bind m k) Q p.
Proof.
  intros Hm Hok HP HF HR. apply wp_bind.
  apply (wp_preserves sameRefs); [assumption|].
  intros r p' Hs. apply (tableOK_sameRefs _ _ Hs) in Hok.
  destruct r; cbn [bindQ]; auto.
Qed.

Lemma parseProperties_body_tagsOK pv continue :
  (forall m n p, tableOK p -> wp pv tagsOK_value (newValue m n, p)) ->
  (forall l p, tableOK p -> forallb noReference l = true ->
               wp (continue l) tagsOK_list p) ->
  forall properties p,
    tableOK p -> forallb noReference properties = true ->
    wp (parseProperties_body pv continue properties) tagsOK_list p.
Proof.
  intros Hpv Hc properties p Hok Hprops. unfold parseProperties_body.
  assert (Hfail : forall (r : result (list Value)) q,
             tableOK q -> (forall l, r <> Ret l) -> tagsOK_list r q).
  { intros r q Hq Hr. split; [assumption|]. intros l E. now apply Hr in E. }
  apply wp_primP; [apply sameRefs_readString|assumption|..];
    try (intros; apply Hfail; [assumption|discriminate]).
  intros [name nameLength] p1 Hok1.
  destruct (nameLength =? 0).
  - apply wp_primP; [apply sameRefs_readBytes|assumption|..];
      try (intros; apply Hfail; [assumption|discriminate]).
    intros data p2 Hok2. apply wp_bind.
    destruct data as [|b tl]; unfold wp at 1; cbn [bindQ index0 ret panic fst snd].
    + apply Hfail; [assumption|discriminate].
    + destruct (Byte.eqb b ObjectEnd); unfold wp; cbn.
      * split; [assumption|]. intros l E. inversion E; subst. assumption.
      * apply Hfail; [assumption|discriminate].
  - apply wp_primP; [apply sameRefs_readBytes|assumption|..];
      try (intros; apply Hfail; [assumption|discriminate]).
    intros data p2 Hok2. apply wp_bind.
    destruct data as [|b tl]; unfold wp at 1; cbn [bindQ index0 ret panic fst snd].
    + apply Hfail; [assumption|discriminate].
    + apply wp_bind. eapply wp_mono; [|apply (call_tagsOK pv Hpv), Hok2].
      intros [v|x|] p3 [H1 H2]; cbn [bindQ];
        try (apply Hfail; [assumption|discriminate]).
      apply Hc; [assumption|].
      rewrite forallb_app, Hprops. cbn. rewrite (H2 v eq_refl). reflexivity.
Qed.

Lemma decoder_tagsOK fuel :
  (forall m n p,
      tableOK p -> wp (parseValue fuel) tagsOK_value (newValue m n, p)) /\
  (forall l p,
      tableOK p -> forallb noReference l = true ->
      wp (parseProperties_loop fuel l) tagsOK_list p).
Proof.
  induction fuel as [|fuel [IHv IHp]]; cbn [parseValue parseProperties_loop].
  - split; intros; (split; [assumption|discriminate]).
  - split; intros.
    + apply parseValue_body_tagsOK; auto.
    + apply parseProperties_body_tagsOK; auto.
Qed.

Lemma Parse_tagsOK p res p' :
  tableOK p ->
  Parse p = Some (res, p') ->
  tableOK p' /\
  forall v, r_err res = None -> r_value res = Some v -> noReference v = true.
Proof.
  intros Hok HP. apply Parse_fuel_inv in HP.
  destruct HP as [Hr|marker rest x v p' Hr E|marker rest v p' Hr E].
  - split; [assumption|discriminate].
  - eapply wp_eq in E; [|apply (proj1 (decoder_tagsOK _)); exact Hok].
    destruct E as [H1 _]. split; [assumption|discriminate].
  - eapply wp_eq in E; [|apply (proj1 (decoder_tagsOK _)); exact Hok].
    destruct E as [H1 H2]. split; [assumption|].
    cbn. intros v' _ E. inversion E; subst. auto.
Qed.

Lemma reachable_tableOK p : reachable p -> tableOK p.
Proof.
  induction 1 as [r|p res p' _ IH HP]; [reflexivity|].
  apply (Parse_tagsOK p res p' IH HP).
Qed.

(** C7. In every value tree returned by a successful [Parse], on a parser
    made by [New] and used by any number of earlier [Parse] calls, no value
    at any depth (array elements and named properties included) carries the
    [Reference] tag. *)
Theorem C7_no_reference_tag p res p' v :
  reachable p ->
  Parse p = Some (res, p') ->
  r_err res = None ->
  r_value res = Some v ->
  noReference v = true.
Proof.
  intros Hreach HP Herr Hval.
  apply (proj2 (Parse_tagsOK p res p' (reachable_tableOK p Hreach) HP) v);
    assumption.
Qed.

Lemma C7_no_reference_tag_witness :
  noReference
    (mkValue Object ""
       (values
          [mkValue Object "a" (values []);
           mkValue StrictArray "b"
             (values [mkValue Object "" (values [])])])) = true.
Proof.
  apply (C7_no_reference_tag
           (New [x03; x00; x01; x61; x03; x00; x00; x09;
                 x00; x01; x62; x0a; x00; x00; x00; x01; x07; x00; x00;
                 x00; x00; x09])
           (mkResult
              (Some (mkValue Object ""
                       (values
                          [mkValue Object "a" (values []);
                           mkValue StrictArray "b"
                             (values [mkValue Object "" (values [])])])))
              22 None)
           {| reader := [];
              references :=
                [mkValue Object "a" (values []);
                 mkValue Object ""
                   (values
                      [mkValue Object "a" (values []);
                       mkValue StrictArray "b"
                         (values [mkValue Object "" (values [])])])];
              bytesRead := 22 |}).
  - apply reachable_New.
  - reflexivity.
  - reflexivity.
  - reflexivity.
Defined.

(** * Strict arrays *)

Lemma tagOf_extends t e q q' : extends q q' -> tagOf t e q -> tagOf t e q'.
Proof.
  intros (_ & added & _ & _ & Hrefs) [H1 H2]. split; [assumption|].
  intros Ht. destruct (H2 Ht) as (ref & Hin & Hm & Hv).
  exists ref. rewrite Hrefs, in_app_iff. auto.
Qed.

Lemma parseValue_body_tagOf pp pv m n y p :
  wp (parseValue_body pp pv)
     (fun r f' => r = Ret tt -> tagOf m (fst f') (snd f'))
     (mkValue m n y, p).
Proof.
  unfold parseValue_body.
  apply wp_bind. unfold wp at 1, getValue. cbn [fst snd bindQ v_Marker].
  destruct m;
    try solve
      [ wp_frame;
        try (unfold wp; cbn; intros;
             first [discriminate | split; [reflexivity|discriminate]]) ].
  (* Reference *)
  apply wp_bind. apply wp_liftP, wp_any. intros [data|x|] p1; cbn [bindQ fst snd];
    try discriminate.
  apply wp_bind. unfold wp at 1, liftP, getReferences. cbn [fst snd bindQ].
  destruct (_ >? _); [unfold wp; cbn; discriminate|].
  destruct (nth_error _ _) as [ref|] eqn:E; [|unfold wp; cbn; discriminate].
  apply nth_error_In in E.
  unfold wp, bind, setValue, setMarker. cbn. intros _.
  split; [congruence|]. intros _. exists ref. auto.
Qed.

Lemma parseValue_tagOf fuel m n y p e q :
  parseValue fuel (mkValue m n y, p) = (Ret tt, (e, q)) -> tagOf m e q.
Proof.
  intros E. destruct fuel as [|fuel]; [discriminate|].
  cbn [parseValue] in E.
  apply (wp_eq _ _ _ _ E _ (parseValue_body_tagOf _ _ m n y p) eq_refl).
Qed.

Lemma forLoop_Ret t body :
  preserves extends body ->
  (forall p e q, body p = (Ret e, q) -> tagOf t e q) ->
  forall n vals p l q,
    forLoop n body vals p = (Ret l, q) ->
    Forall (fun e => tagOf t e p) vals ->
    List.length l = (List.length vals + n)%nat /\
    Forall (fun e => tagOf t e q) l.
Proof.
  intros Hext Hbody. induction n as [|n IH]; intros vals p l q E Hvals;
    cbn [forLoop] in E.
  - inversion E; subst. split; [lia|assumption].
  - apply bind_Ret in E as (e & p1 & E1 & E2).
    pose proof (preserves_eq extends _ _ _ _ Hext E1) as Hstep.
    apply IH in E2.
    + destruct E2 as [Hlen Hall]. split; [|assumption].
      rewrite Hlen, length_app. cbn. lia.
    + apply Forall_app. split.
      * eapply Forall_impl; [|exact Hvals].
        intros a Ha. apply (tagOf_extends t a p p1 Hstep Ha).
      * constructor; [|constructor]. apply (Hbody p e p1 E1).
Qed.

Lemma call_Ret body init p e q :
  call body init p = (Ret e, q) -> body (init, p) = (Ret tt, (e, q)).
Proof.
  unfold call. destruct (body (init, p)) as [[[]|x|] [v p']];
    intros H; inversion H; subst; reflexivity.
Qed.

Lemma Uint32_nonneg data : 0 <= Uint32 data.
Proof.
  unfold Uint32, at_.
  repeat (apply Z.lor_nonneg; split);
    try apply Z.shiftl_nonneg; apply byteZ_nonneg.
Qed.

Lemma readBytes_4 c0 c1 c2 c3 rest refs n :
  readBytes 4
    {| reader := c0 :: c1 :: c2 :: c3 :: rest; references := refs;
       bytesRead := n |} =
  (Ret [c0; c1; c2; c3],
   {| reader := rest; references := refs; bytesRead := n + 4 |}).
Proof. exact (readBytes_app [c0; c1; c2; c3] rest refs n). Qed.

(** C6, as the code has it.  A [StrictArray] that decodes successfully, with
    declared four-byte big-endian count [n] and declared element tag [t],
    has as payload a sequence of exactly [n] values.  When [t] is not
    [Reference] every element carries [t]; when [t] is [Reference] every
    element is a resolved backreference and carries the tag and the payload
    of an entry of the reference table instead. *)
Theorem C6_strict_array fuel name x c0 c1 c2 c3 t rest refs cnt v' p' :
  parseValue (S fuel)
    (mkValue StrictArray name x,
     {| reader := c0 :: c1 :: c2 :: c3 :: t :: rest; references := refs;
        bytesRead := cnt |}) = (Ret tt, (v', p')) ->
  exists vals,
    v' = mkValue StrictArray name (values vals) /\
    Z.of_nat (List.length vals) = Uint32 [c0; c1; c2; c3] /\
    (t <> Reference -> Forall (fun e => v_Marker e = t) vals) /\
    (t = Reference ->
     Forall (fun e => exists ref,
                 In ref (references p') /\
                 v_Marker e = v_Marker ref /\ v_Value e = v_Value ref) vals).
Proof.
  cbn [parseValue]. unfold parseValue_body. unfold bind at 1, getValue.
  cbn [fst snd v_Marker]. unfold bind at 1, liftP at 1. cbn [fst snd].
  rewrite readBytes_4. cbn zeta. unfold bind at 1, liftP at 1. cbn [fst snd].
  rewrite readBytes_1. unfold bind at 1. cbn [index0 ret].
  unfold bind, liftP. cbn [fst snd].
  destruct (forLoop _ _ _ _) as [[l|y|] q] eqn:E; try discriminate.
  unfold setValue. cbn [fst snd]. intros H. inversion H; subst; clear H.
  apply (forLoop_Ret t) in E.
  - destruct E as [Hlen Hall]. exists l. split; [reflexivity|].
    cbn [List.length] in Hlen. rewrite Nat.add_0_l in Hlen.
    pose proof (Uint32_nonneg [c0; c1; c2; c3]).
    split; [lia|]. split; intros Ht.
    + eapply Forall_impl; [|exact Hall]. intros e [He _]. auto.
    + eapply Forall_impl; [|exact Hall]. intros e [_ He]. auto.
  - apply preserves_call. apply (proj1 (extends_decoder fuel)).
  - intros p e q0 Hc. apply call_Ret in Hc.
    apply (parseValue_tagOf fuel t _ _ p e q0 Hc).
  - constructor.
Qed.

Lemma C6_strict_array_witness :
  exists vals,
    mkValue StrictArray "" (values [mkValue Boolean "" (bool_ true);
                                    mkValue Boolean "" (bool_ false)]) =
    mkValue StrictArray "" (values vals) /\
    Z.of_nat (List.length vals) = Uint32 [x00; x00; x00; x02] /\
    (Boolean <> Reference -> Forall (fun e => v_Marker e = Boolean) vals) /\
    (Boolean = Reference ->
     Forall (fun e => exists ref,
                 In ref (references {| reader := [x09]; references := [];
                                       bytesRead := 8 |}) /\
                 v_Marker e = v_Marker ref /\ v_Value e = v_Value ref) vals).
Proof.
  apply (C6_strict_array 1 "" nil_ x00 x00 x00 x02 Boolean [x01; x00; x09]
           [] 1).
  reflexivity.
Defined.

(** C6 as stated fails: inside the object decoded here, the array declares
    one element of tag [Reference] (bytes [0a 00 00 00 01 07]); its element
    is the resolved backreference [00 00] and carries the tag [Object]. *)
Lemma C6_counterexample :
  exists res p' e,
    Parse (New [x03; x00; x01; x61; x03; x00; x00; x09;
                x00; x01; x62; x0a; x00; x00; x00; x01; x07; x00; x00;
                x00; x00; x09]) = Some (res, p') /\
    r_err res = None /\
    r_value res =
    Some (mkValue Object ""
            (values [mkValue Object "a" (values []);
                     mkValue StrictArray "b" (values [e])])) /\
    v_Marker e = Object /\
    v_Marker e <> Reference.
Proof.
  exists (mkResult
            (Some (mkValue Object ""
                     (values [mkValue Object "a" (values []);
                              mkValue StrictArray "b"
                                (values [mkValue Object "" (values [])])])))
            22 None).
  eexists. exists (mkValue Object "" (values [])).
  split; [vm_compute; reflexivity|].
  repeat split. discriminate.
Qed.

(** * Order of registration *)

Lemma container_Ret pp v p v' p' :
  (properties <- liftP pp ;; setValue (values properties) ;; register) (v, p) =
  (Ret tt, (v', p')) ->
  exists props q,
    pp p = (Ret props, q) /\
    v' = mkValue (v_Marker v) (v_Name v) (values props) /\
    p' = {| reader := reader q; references := (references q ++ [v'])%list;
            bytesRead := bytesRead q |}.
Proof.
  unfold bind, liftP. cbn [fst snd].
  destruct (pp p) as [[props|y|] q]; try discriminate.
  destruct v as [m n x]. unfold setValue, register. cbn.
  intros H. inversion H; subst. eauto.
Qed.

(** The bytes a keyed container reads before its property list leave the
    table as it is. *)
Lemma complex_prefix fuel m name x p v' p' :
  complex m = true ->
  parseValue (S fuel) (mkValue m name x, p) = (Ret tt, (v', p')) ->
  exists q0 name',
    sameRefs p q0 /\
    (properties <- liftP (parseProperties fuel) ;;
     setValue (values properties) ;; register) (mkValue m name' x, q0) =
    (Ret tt, (v', p')).
Proof.
  intros Hm. cbn [parseValue]. unfold parseValue_body.
  unfold bind at 1, getValue. cbn [fst snd v_Marker].
  destruct m; try discriminate; clear Hm; fold (parseProperties fuel).
  - (* Object *)
    intros E. exists p, name. split; [reflexivity|exact E].
  - (* ECMAArray *)
    unfold bind at 1, liftP at 1. cbn [fst snd].
    destruct (readBytes 4 p) as [[data|y|] q0] eqn:E0; try discriminate.
    intros E. exists q0, name. split; [|exact E].
    apply (preserves_eq sameRefs _ _ _ _ (sameRefs_readBytes 4) E0).
  - (* TypedObject *)
    unfold bind at 1, liftP at 1. cbn [fst snd].
    destruct (readString String p) as [[r|y|] q0] eqn:E0; try discriminate.
    unfold bind at 1, setName at 1. cbn [fst snd].
    intros E. exists q0, (fst r). split; [|exact E].
    apply (preserves_eq sameRefs _ _ _ _ (sameRefs_readString String) E0).
Qed.

(** C8. The reference table is append-only, and the keyed containers
    ([Object], [ECMAArray], [TypedObject]) get their index when they finish
    decoding: such a value is appended, complete, after its whole property
    list has been decoded, so the entries registered while that list was
    decoded (the nested complex values) precede it, and it is the last entry
    when its decoding returns.  Only values with these three tags are
    registered. *)
Theorem C8_registration_order :
  (forall fuel f,
      exists added,
        references (snd (snd (parseValue fuel f))) =
        (references (snd f) ++ added)%list) /\
  (forall fuel m name x p v' p',
      complex m = true ->
      parseValue (S fuel) (mkValue m name x, p) = (Ret tt, (v', p')) ->
      exists q0 props q inner,
        references q0 = references p /\
        parseProperties fuel q0 = (Ret props, q) /\
        references q = (references p ++ inner)%list /\
        v_Marker v' = m /\
        v_Value v' = values props /\
        references p' = (references p ++ inner ++ [v'])%list) /\
  (forall p res p',
      reachable p ->
      Parse p = Some (res, p') ->
      forallb (fun e => complex (v_Marker e)) (references p') = true).
Proof.
  split; [|split].
  - intros fuel [v p]. destruct (extends_parseValue fuel v p) as (t & a & H).
    exists a. apply H.
  - intros fuel m name x p v' p' Hm E.
    apply complex_prefix in E as (q0 & name' & Hsame & E); [|assumption].
    apply container_Ret in E as (props & q & Hpp & Hv & Hp').
    pose proof (preserves_eq extends _ _ _ _
                  (proj2 (extends_decoder fuel) []) Hpp)
      as (t & inner & _ & _ & Hrefs).
    unfold sameRefs in Hsame. rewrite Hsame in Hrefs.
    exists q0, props, q, inner.
    repeat split; try assumption.
    + rewrite Hv. reflexivity.
    + rewrite Hv. reflexivity.
    + rewrite Hp'. cbn [references]. rewrite Hrefs, <- app_assoc. reflexivity.
  - intros p res p' Hreach HP.
    assert (Hok : tableOK p') by (apply reachable_tableOK; econstructor; eauto).
    unfold tableOK in Hok. rewrite forallb_forall in *.
    intros e He. specialize (Hok e He). unfold registrable in Hok.
    apply andb_prop in Hok. tauto.
Qed.

Lemma C8_registration_order_witness :
  exists q0 props q inner,
    references q0 = references (New [x00; x01; x61; x03; x00; x00; x09;
                                     x00; x00; x09]) /\
    parseProperties 3%nat q0 = (Ret props, q) /\
    references q =
    (references (New [x00; x01; x61; x03; x00; x00; x09; x00; x00; x09])
     ++ inner)%list /\
    v_Marker (mkValue Object "" (values [mkValue Object "a" (values [])])) =
    Object /\
    v_Value (mkValue Object "" (values [mkValue Object "a" (values [])])) =
    values props /\
    references
      {| reader := [];
         references :=
           [mkValue Object "a" (values []);
            mkValue Object "" (values [mkValue Object "a" (values [])])];
         bytesRead := 10 |} =
    (references (New [x00; x01; x61; x03; x00; x00; x09; x00; x00; x09])
     ++ inner
     ++ [mkValue Object "" (values [mkValue Object "a" (values [])])])%list.
Proof.
  apply (proj1 (proj2 C8_registration_order) 3%nat Object ""%string nil_
           (New [x00; x01; x61; x03; x00; x00; x09; x00; x00; x09])).
  - reflexivity.
  - vm_compute. reflexivity.
Defined.

(** * The result does not depend on the fuel *)

Lemma refines_refl {S A} (m : M S A) : refines m m.
Proof. intros s _. reflexivity. Qed.

Lemma refines_trans {S A} (m1 m2 m3 : M S A) :
  refines m1 m2 -> refines m2 m3 -> refines m1 m3.
Proof.
  intros H12 H23 s Hs. rewrite <- (H12 s Hs). apply H23.
  rewrite (H12 s Hs). exact Hs.
Qed.

Lemma refines_bind {S A B} (m m' : M S A) (k k' : A -> M S B) :
  refines m m' -> (forall a, refines (k a) (k' a)) ->
  refines (bind m k) (bind m' k').
Proof.
  intros Hm Hk s. unfold bind. specialize (Hm s).
  destruct (m s) as [[a|x|] s1]; cbn [fst] in *; intros H.
  - rewrite Hm by discriminate. apply Hk, H.
  - rewrite Hm by discriminate. reflexivity.
  - contradiction.
Qed.

Lemma refines_liftP {A} (m m' : M Parser A) :
  refines m m' -> refines (liftP m) (liftP m').
Proof.
  intros Hm f. unfold liftP. specialize (Hm (snd f)).
  destruct (m (snd f)) as [r p1]; cbn [fst] in *.
  intros H. rewrite (Hm H). reflexivity.
Qed.

Lemma refines_call body body' init :
  refines body body' -> refines (call body init) (call body' init).
Proof.
  intros Hb p. unfold call. specialize (Hb (init, p)).
  destruct (body (init, p)) as [[a|x|] [v p1]]; cbn [fst] in *; intros H;
    try contradiction; rewrite Hb by discriminate; reflexivity.
Qed.

Lemma refines_forLoop body body' :
  refines body body' ->
  forall n vals, refines (forLoop n body vals) (forLoop n body' vals).
Proof.
  intros Hb. induction n as [|n IH]; intros vals; cbn [forLoop].
  - apply refines_refl.
  - apply refines_bind; auto.
Qed.

Ltac refines_step :=
  first
    [ assumption
    | apply refines_refl
    | apply refines_liftP
    | apply refines_call
    | apply refines_forLoop
    | apply refines_bind
    | match goal with
      | |- forall _, _ => intro
      | |- refines (if ?c then _ else _) _ => destruct c
      | |- refines (match ?x with _ => _ end) _ => destruct x
      | H : forall l, refines _ _ |- _ => apply H
      end ].

Lemma refines_parseValue_body pp pp' pv pv' :
  refines pp pp' -> refines pv pv' ->
  refines (parseValue_body pp pv) (parseValue_body pp' pv').
Proof.
  intros Hpp Hpv. unfold parseValue_body.
  apply refines_bind; [apply refines_refl|].
  intros value. destruct (v_Marker value); repeat refines_step.
Qed.

Lemma refines_parseProperties_body pv pv' continue continue' properties :
  refines pv pv' ->
  (forall l, refines (continue l) (continue' l)) ->
  refines (parseProperties_body pv continue properties)
          (parseProperties_body pv' continue' properties).
Proof.
  intros Hpv Hc. unfold parseProperties_body. repeat refines_step.
Qed.

Lemma refines_decoder_S fuel :
  refines (parseValue fuel) (parseValue (S fuel)) /\
  forall l, refines (parseProperties_loop fuel l)
                    (parseProperties_loop (S fuel) l).
Proof.
  induction fuel as [|fuel [IHv IHp]].
  - split; intros; intros s H; cbn in H; contradiction.
  - split; intros.
    + apply refines_parseValue_body; auto.
    + apply refines_parseProperties_body; auto.
Qed.

Lemma refines_parseValue_le fuel fuel' :
  (fuel <= fuel')%nat -> refines (parseValue fuel) (parseValue fuel').
Proof.
  induction 1 as [|fuel' _ IH]; [apply refines_refl|].
  eapply refines_trans; [exact IH|apply refines_decoder_S].
Qed.

Lemma Parse_fuel_le fuel fuel' p out :
  (fuel <= fuel')%nat ->
  Parse_fuel fuel p = Some out -> Parse_fuel fuel' p = Some out.
Proof.
  intros Hle. unfold Parse_fuel.
  destruct ((data <- readBytes 1 ;; index0 data) p) as [[marker|x|] p1]; auto.
  pose proof (refines_parseValue_le fuel fuel' Hle (newValue marker "", p1))
    as H.
  destruct (parseValue fuel (newValue marker "", p1)) as [[u|x|] [v p2]];
    try discriminate; rewrite H by discriminate; auto.
Qed.

(** Whatever fuel lets the decoder finish, the result is that of [Parse]. *)
Lemma Parse_fuel_Parse fuel p out :
  Parse_fuel fuel p = Some out -> Parse p = Some out.
Proof.
  intros H. destruct (Parse_total p) as (res & p' & HP).
  unfold Parse in *.
  apply (Parse_fuel_le _ (Nat.max fuel (S (S (List.length (reader p))))))
    in H; [|lia].
  assert (HP' : Parse_fuel (Nat.max fuel (S (S (List.length (reader p))))) p
                = Some (res, p'))
    by (eapply Parse_fuel_le; [|exact HP]; lia).
  congruence.
Qed.

(** * The decoder, tag by tag *)

(** [Parse] from what [parseValue] does after the leading tag byte. *)
Lemma Parse_Ret_intro m rest refs n v rest2 refs2 n2 :
  (forall fuel,
      parseValue (S fuel)
        (newValue m "",
         {| reader := rest; references := refs; bytesRead := n + 1 |}) =
      (Ret tt,
       (v, {| reader := rest2; references := refs2; bytesRead := n2 |}))) ->
  Parse {| reader := m :: rest; references := refs; bytesRead := n |} =
  Some (mkResult (Some v) n2 None,
        {| reader := rest2; references := refs2; bytesRead := n2 |}).
Proof.
  intros H. unfold Parse, Parse_fuel. cbn [reader List.length].
  unfold bind at 1. rewrite readBytes_1. cbn [index0 ret]. rewrite H.
  reflexivity.
Qed.

Lemma Parse_Panic_intro m rest refs n x v p2 :
  (forall fuel,
      parseValue (S fuel)
        (newValue m "",
         {| reader := rest; references := refs; bytesRead := n + 1 |}) =
      (Panic x, (v, p2))) ->
  Parse {| reader := m :: rest; references := refs; bytesRead := n |} =
  Some (mkResult (Some v) 0 (Some (recovered x)), p2).
Proof.
  intros H. unfold Parse, Parse_fuel. cbn [reader List.length].
  unfold bind at 1. rewrite readBytes_1. cbn [index0 ret]. rewrite H.
  reflexivity.
Qed.

Lemma readBytes_8 d0 d1 d2 d3 d4 d5 d6 d7 rest refs n :
  readBytes 8
    {| reader := d0 :: d1 :: d2 :: d3 :: d4 :: d5 :: d6 :: d7 :: rest;
       references := refs; bytesRead := n |} =
  (Ret [d0; d1; d2; d3; d4; d5; d6; d7],
   {| reader := rest; references := refs; bytesRead := n + 8 |}).
Proof. exact (readBytes_app [d0; d1; d2; d3; d4; d5; d6; d7] rest refs n). Qed.

(** The first step of [parseValue]: the switch on the tag of [*value]. *)
Ltac enter_parseValue :=
  cbn [parseValue]; unfold parseValue_body;
  unfold bind at 1, getValue; cbn [fst snd v_Marker newValue].

(** One [liftP (readBytes _)] of a known width at the head of a [bind]. *)
Ltac read_known lem :=
  unfold bind at 1, liftP at 1; cbn [fst snd]; rewrite lem.

(** X1. A [Number] is the tag byte and eight more bytes: whatever the parser
    holds and whatever follows in the stream, [Parse] returns a [Number]
    whose payload is the [float64] with the big-endian bit pattern of those
    eight bytes, leaves the reference table alone and has counted nine
    bytes. *)
Theorem X1_number d0 d1 d2 d3 d4 d5 d6 d7 rest refs n :
  Parse {| reader := Number :: d0 :: d1 :: d2 :: d3 :: d4 :: d5 :: d6 :: d7
                     :: rest;
           references := refs; bytesRead := n |} =
  Some (mkResult
          (Some (mkValue Number ""
                   (float64 (Uint64 [d0; d1; d2; d3; d4; d5; d6; d7]))))
          (n + 1 + 8) None,
        {| reader := rest; references := refs; bytesRead := n + 1 + 8 |}).
Proof.
  apply (Parse_Ret_intro Number). intros fuel. enter_parseValue.
  unfold readDouble, bind, liftP. cbn [fst snd]. rewrite readBytes_8.
  reflexivity.
Qed.

(** X2. A [Boolean] is the tag byte and one more byte; the payload is [false]
    for the byte 0 and [true] for every other byte. *)
Theorem X2_boolean b rest refs n :
  Parse {| reader := Boolean :: b :: rest; references := refs;
           bytesRead := n |} =
  Some (mkResult
          (Some (mkValue Boolean "" (bool_ (negb (Byte.eqb b x00)))))
          (n + 1 + 1) None,
        {| reader := rest; references := refs; bytesRead := n + 1 + 1 |}).
Proof.
  apply (Parse_Ret_intro Boolean). intros fuel. enter_parseValue.
  unfold bind, liftP. cbn [fst snd]. rewrite readBytes_1. reflexivity.
Qed.

(** ** Strings *)

Lemma byteZ_lt b : byteZ b < 256.
Proof.
  unfold byteZ. pose proof (Byte.to_N_bounded b) as H.
  apply N2Z.inj_le in H. change (Z.of_N 255) with 255 in H. lia.
Qed.

Lemma lor_lt_pow2 a b k :
  0 <= k -> 0 <= a < 2 ^ k -> 0 <= b < 2 ^ k -> Z.lor a b < 2 ^ k.
Proof.
  intros Hk Ha Hb.
  destruct (Z.eq_dec (Z.lor a b) 0) as [E|E]; [rewrite E; lia|].
  assert (H0 : 0 <= Z.lor a b) by (apply Z.lor_nonneg; lia).
  assert (Hk0 : 0 < k).
  { destruct (Z.eq_dec k 0) as [->|]; [|lia].
    change (2 ^ 0) with 1 in *.
    assert (a = 0) as -> by lia. assert (b = 0) as -> by lia.
    contradiction. }
  apply Z.log2_lt_pow2; [lia|].
  rewrite Z.log2_lor by lia.
  apply Z.max_lub_lt.
  - destruct (Z.eq_dec a 0) as [->|]; [cbn; lia|].
    apply Z.log2_lt_pow2; lia.
  - destruct (Z.eq_dec b 0) as [->|]; [cbn; lia|].
    apply Z.log2_lt_pow2; lia.
Qed.

Lemma Uint16_lt data : Uint16 data < 2 ^ 16.
Proof.
  unfold Uint16, at_.
  pose proof (byteZ_nonneg (nth 1 data x00)).
  pose proof (byteZ_lt (nth 1 data x00)).
  pose proof (byteZ_nonneg (nth 0 data x00)).
  pose proof (byteZ_lt (nth 0 data x00)).
  apply lor_lt_pow2; [lia|lia|].
  rewrite Z.shiftl_mul_pow2 by lia. lia.
Qed.

Lemma int32_small x : 0 <= x < 2 ^ 31 -> int32 x = x.
Proof.
  intros H. unfold int32. destruct (Z.ltb_spec x (2 ^ 31)); lia.
Qed.

Lemma int32_wraps x : 2 ^ 31 <= x < 2 ^ 32 -> int32 x < 0.
Proof.
  intros H. unfold int32. destruct (Z.ltb_spec x (2 ^ 31)); lia.
Qed.

Lemma lor_bounds a b k :
  0 <= k -> 0 <= a < 2 ^ k -> 0 <= b < 2 ^ k -> 0 <= Z.lor a b < 2 ^ k.
Proof.
  intros Hk Ha Hb. split; [apply Z.lor_nonneg; lia|].
  apply lor_lt_pow2; assumption.
Qed.

Lemma shiftl_byte_bounds b s :
  0 <= s <= 24 -> 0 <= Z.shiftl (byteZ b) s < 2 ^ 32.
Proof.
  intros Hs. pose proof (byteZ_nonneg b). pose proof (byteZ_lt b).
  rewrite Z.shiftl_mul_pow2 by lia.
  assert (0 < 2 ^ s) by (apply Z.pow_pos_nonneg; lia).
  assert (2 ^ s <= 2 ^ 24) by (apply Z.pow_le_mono_r; lia).
  split; [nia|].
  assert (byteZ b * 2 ^ s <= 255 * 2 ^ 24) by nia. lia.
Qed.

Lemma Uint32_lt data : Uint32 data < 2 ^ 32.
Proof.
  unfold Uint32, at_.
  assert (B3 : 0 <= byteZ (nth 3 data x00) < 2 ^ 32).
  { pose proof (byteZ_nonneg (nth 3 data x00)).
    pose proof (byteZ_lt (nth 3 data x00)). lia. }
  apply lor_bounds; [lia| |apply shiftl_byte_bounds; lia].
  apply lor_bounds; [lia| |apply shiftl_byte_bounds; lia].
  apply lor_bounds; [lia|exact B3|apply shiftl_byte_bounds; lia].
Qed.

(** [readString] on a two-byte length followed by that many bytes. *)
Lemma readString_String_app b0 b1 data rest refs n :
  Uint16 [b0; b1] = Z.of_nat (List.length data) ->
  readString String
    {| reader := b0 :: b1 :: (data ++ rest)%list; references := refs;
       bytesRead := n |} =
  (Ret (string_of_list_byte data, Z.of_nat (List.length data)),
   {| reader := rest; references := refs;
      bytesRead := n + 2 + Z.of_nat (List.length data) |}).
Proof.
  intros Hlen. unfold readString. cbn [Byte.eqb].
  change (Byte.eqb String String) with true. cbn match.
  unfold bind. rewrite readBytes_2. cbn [ret].
  pose proof (Uint16_nonneg [b0; b1]). pose proof (Uint16_lt [b0; b1]).
  rewrite int32_small by lia. rewrite Hlen, readBytes_app. reflexivity.
Qed.

(** [readString] on a four-byte length followed by that many bytes. *)
Lemma readString_Long_app m c0 c1 c2 c3 data rest refs n :
  m = LongString \/ m = XmlDocument ->
  Uint32 [c0; c1; c2; c3] = Z.of_nat (List.length data) ->
  Z.of_nat (List.length data) < 2 ^ 31 ->
  readString m
    {| reader := c0 :: c1 :: c2 :: c3 :: (data ++ rest)%list;
       references := refs; bytesRead := n |} =
  (Ret (string_of_list_byte data, Z.of_nat (List.length data)),
   {| reader := rest; references := refs;
      bytesRead := n + 4 + Z.of_nat (List.length data) |}).
Proof.
  intros Hm Hlen Hsmall. unfold readString.
  assert (E1 : Byte.eqb m String = false) by (destruct Hm; subst; reflexivity).
  assert (E2 : Byte.eqb m LongString || Byte.eqb m XmlDocument = true)
    by (destruct Hm; subst; reflexivity).
  rewrite E1, E2. unfold bind. rewrite readBytes_4. cbn [ret].
  rewrite int32_small by lia. rewrite Hlen, readBytes_app. reflexivity.
Qed.

(** [readString] on a four-byte length of 2^31 or more: the length wraps to
    a negative [int32] and [make] panics. *)
Lemma readString_Long_wraps m c0 c1 c2 c3 rest refs n :
  m = LongString \/ m = XmlDocument ->
  2 ^ 31 <= Uint32 [c0; c1; c2; c3] ->
  readString m
    {| reader := c0 :: c1 :: c2 :: c3 :: rest; references := refs;
       bytesRead := n |} =
  (Panic (panicError (runtimeError "makeslice: len out of range")),
   {| reader := rest; references := refs; bytesRead := n + 4 |}).
Proof.
  intros Hm Hbig. unfold readString.
  assert (E1 : Byte.eqb m String = false) by (destruct Hm; subst; reflexivity).
  assert (E2 : Byte.eqb m LongString || Byte.eqb m XmlDocument = true)
    by (destruct Hm; subst; reflexivity).
  rewrite E1, E2. unfold bind. rewrite readBytes_4. cbn [ret].
  pose proof (Uint32_lt [c0; c1; c2; c3]).
  pose proof (int32_wraps (Uint32 [c0; c1; c2; c3]) ltac:(lia)) as Hneg.
  unfold readBytes. destruct (Z.ltb_spec (int32 (Uint32 [c0; c1; c2; c3])) 0);
    [reflexivity|lia].
Qed.

(** X3. A [String] is the tag byte, a two-byte big-endian length and that
    many bytes: [Parse] returns a [String] whose payload is exactly those
    bytes, and has counted the tag, the length field and the bytes. *)
Theorem X3_string b0 b1 data rest refs n :
  Uint16 [b0; b1] = Z.of_nat (List.length data) ->
  Parse {| reader := String :: b0 :: b1 :: (data ++ rest)%list;
           references := refs; bytesRead := n |} =
  Some (mkResult (Some (mkValue String "" (string_ (string_of_list_byte data))))
          (n + 1 + 2 + Z.of_nat (List.length data)) None,
        {| reader := rest; references := refs;
           bytesRead := n + 1 + 2 + Z.of_nat (List.length data) |}).
Proof.
  intros Hlen. apply (Parse_Ret_intro String). intros fuel. enter_parseValue.
  unfold bind, liftP. cbn [fst snd].
  rewrite (readString_String_app b0 b1 data rest refs (n + 1) Hlen).
  reflexivity.
Qed.

Lemma X3_string_witness :
  Parse {| reader := String :: x00 :: x05
                     :: ([x68; x65; x6c; x6c; x6f] ++ [x05])%list;
           references := []; bytesRead := 0 |} =
  Some (mkResult
          (Some (mkValue String ""
                   (string_ (string_of_list_byte [x68; x65; x6c; x6c; x6f]))))
          (0 + 1 + 2 + Z.of_nat (List.length [x68; x65; x6c; x6c; x6f])) None,
        {| reader := [x05]; references := [];
           bytesRead :=
             0 + 1 + 2 + Z.of_nat (List.length [x68; x65; x6c; x6c; x6f]) |}).
Proof.
  apply (X3_string x00 x05 [x68; x65; x6c; x6c; x6f] [x05] [] 0).
  reflexivity.
Defined.

(** X4. A [LongString] or an [XmlDocument] is the tag byte, a four-byte
    big-endian length and that many bytes; both are decoded alike, for every
    length below 2^31, and the value keeps the tag it was read with. *)
Theorem X4_long_string m c0 c1 c2 c3 data rest refs n :
  m = LongString \/ m = XmlDocument ->
  Uint32 [c0; c1; c2; c3] = Z.of_nat (List.length data) ->
  Z.of_nat (List.length data) < 2 ^ 31 ->
  Parse {| reader := m :: c0 :: c1 :: c2 :: c3 :: (data ++ rest)%list;
           references := refs; bytesRead := n |} =
  Some (mkResult (Some (mkValue m "" (string_ (string_of_list_byte data))))
          (n + 1 + 4 + Z.of_nat (List.length data)) None,
        {| reader := rest; references := refs;
           bytesRead := n + 1 + 4 + Z.of_nat (List.length data) |}).
Proof.
  intros Hm Hlen Hsmall. apply (Parse_Ret_intro m). intros fuel.
  pose proof (readString_Long_app m c0 c1 c2 c3 data rest refs (n + 1)
                Hm Hlen Hsmall) as E.
  enter_parseValue.
  destruct Hm; subst m; unfold bind, liftP; cbn [fst snd]; rewrite E;
    reflexivity.
Qed.

Lemma X4_long_string_witness :
  Parse {| reader := XmlDocument :: x00 :: x00 :: x00 :: x02
                     :: ([x3c; x3e] ++ [])%list;
           references := []; bytesRead := 7 |} =
  Some (mkResult
          (Some (mkValue XmlDocument ""
                   (string_ (string_of_list_byte [x3c; x3e]))))
          (7 + 1 + 4 + Z.of_nat (List.length [x3c; x3e])) None,
        {| reader := []; references := [];
           bytesRead := 7 + 1 + 4 + Z.of_nat (List.length [x3c; x3e]) |}).
Proof.
  apply (X4_long_string XmlDocument x00 x00 x00 x02 [x3c; x3e] [] [] 7).
  - right. reflexivity.
  - reflexivity.
  - reflexivity.
Defined.

(** X5. A [LongString] or an [XmlDocument] whose declared length is 2^31 or
    more is never read: the length wraps to a negative [int32], allocating
    the buffer panics, and [Parse] fails with that runtime error after the
    tag and the length field, whatever follows in the stream. *)
Theorem X5_long_string_length_wraps m c0 c1 c2 c3 rest refs n :
  m = LongString \/ m = XmlDocument ->
  2 ^ 31 <= Uint32 [c0; c1; c2; c3] ->
  Parse {| reader := m :: c0 :: c1 :: c2 :: c3 :: rest;
           references := refs; bytesRead := n |} =
  Some (mkResult (Some (mkValue m "" nil_)) 0
          (Some (runtimeError "makeslice: len out of range")),
        {| reader := rest; references := refs; bytesRead := n + 1 + 4 |}).
Proof.
  intros Hm Hbig.
  apply (Parse_Panic_intro m _ refs n
           (panicError (runtimeError "makeslice: len out of range"))).
  intros fuel.
  pose proof (readString_Long_wraps m c0 c1 c2 c3 rest refs (n + 1) Hm Hbig)
    as E.
  enter_parseValue.
  destruct Hm; subst m; unfold bind, liftP; cbn [fst snd]; rewrite E;
    reflexivity.
Qed.

Lemma X5_long_string_length_wraps_witness :
  Parse {| reader := LongString :: x80 :: x00 :: x00 :: x00 :: [x41];
           references := []; bytesRead := 0 |} =
  Some (mkResult (Some (mkValue LongString "" nil_)) 0
          (Some (runtimeError "makeslice: len out of range")),
        {| reader := [x41]; references := []; bytesRead := 0 + 1 + 4 |}).
Proof.
  apply (X5_long_string_length_wraps LongString x80 x00 x00 x00 [x41] [] 0).
  - left. reflexivity.
  - vm_compute. discriminate.
Defined.

(** ** Tags without a payload, tags that are refused *)

(** X6. [Null], [Undefined] and every tag byte that has no case in the
    switch (the end marker [ObjectEnd] and all bytes from 0x12 on) decode to
    a value with that tag and no payload; nothing but the tag byte is
    consumed and [Parse] succeeds. *)
Theorem X6_no_payload_tags m rest refs n :
  m = Null \/ m = Undefined \/ handled m = false ->
  Parse {| reader := m :: rest; references := refs; bytesRead := n |} =
  Some (mkResult (Some (mkValue m "" nil_)) (n + 1) None,
        {| reader := rest; references := refs; bytesRead := n + 1 |}).
Proof.
  intros Hm. apply (Parse_Ret_intro m). intros fuel. enter_parseValue.
  destruct m; try reflexivity;
    exfalso; destruct Hm as [H|[H|H]]; discriminate.
Qed.

Lemma X6_no_payload_tags_witness :
  Parse {| reader := [ObjectEnd; x01]; references := []; bytesRead := 0 |} =
  Some (mkResult (Some (mkValue ObjectEnd "" nil_)) (0 + 1) None,
        {| reader := [x01]; references := []; bytesRead := 0 + 1 |}).
Proof.
  apply (X6_no_payload_tags ObjectEnd [x01] [] 0).
  right. right. reflexivity.
Defined.

(** X7. The refused tags fail at once, wherever the value stands (top level,
    property or array element): [Movieclip], [Unsupported] and [Recordset]
    with the error "unsupported type" followed by the tag in decimal,
    [AvmPlusObject] with "amf3 is not supported".  No byte is consumed for
    them and neither [*value] nor the parser changes. *)
Theorem X7_refused_tags fuel name x p :
  (parseValue (S fuel) (mkValue Movieclip name x, p) =
   (Panic (panicString "unsupported type 4"), (mkValue Movieclip name x, p)) /\
   recovered (panicString "unsupported type 4") = UnsupportedType Movieclip) /\
  (parseValue (S fuel) (mkValue Unsupported name x, p) =
   (Panic (panicString "unsupported type 13"),
    (mkValue Unsupported name x, p)) /\
   recovered (panicString "unsupported type 13") =
   UnsupportedType Unsupported) /\
  (parseValue (S fuel) (mkValue Recordset name x, p) =
   (Panic (panicString "unsupported type 14"),
    (mkValue Recordset name x, p)) /\
   recovered (panicString "unsupported type 14") =
   UnsupportedType Recordset) /\
  (parseValue (S fuel) (mkValue AvmPlusObject name x, p) =
   (Panic (panicString "amf3 is not supported"),
    (mkValue AvmPlusObject name x, p)) /\
   recovered (panicString "amf3 is not supported") = UnsupportedVersion).
Proof.
  repeat split; reflexivity.
Qed.

(** X8. A [Date] is the tag byte, two time-zone bytes and eight more bytes:
    the payload is the [float64] with the big-endian bit pattern of the
    eight bytes, and the two time-zone bytes have no influence on it. *)
Theorem X8_date t0 t1 d0 d1 d2 d3 d4 d5 d6 d7 rest refs n :
  Parse {| reader := Date :: t0 :: t1 :: d0 :: d1 :: d2 :: d3 :: d4 :: d5
                     :: d6 :: d7 :: rest;
           references := refs; bytesRead := n |} =
  Some (mkResult
          (Some (mkValue Date ""
                   (float64 (Uint64 [d0; d1; d2; d3; d4; d5; d6; d7]))))
          (n + 1 + 2 + 8) None,
        {| reader := rest; references := refs;
           bytesRead := n + 1 + 2 + 8 |}).
Proof.
  apply (Parse_Ret_intro Date). intros fuel. enter_parseValue.
  unfold bind, liftP. cbn [fst snd]. rewrite readBytes_2. cbn [fst snd].
  rewrite readBytes_8. reflexivity.
Qed.

(** [Parse] once the leading tag byte is read. *)
Lemma Parse_cons m rest refs n :
  Parse {| reader := m :: rest; references := refs; bytesRead := n |} =
  match parseValue (S (S (S (List.length rest))))
          (newValue m "",
           {| reader := rest; references := refs; bytesRead := n + 1 |}) with
  | (Ret _, (value, p2)) =>
      Some (mkResult (Some value) (bytesRead p2) None, p2)
  | (Panic r, (value, p2)) =>
      Some (mkResult (Some value) 0 (Some (recovered r)), p2)
  | (OutOfFuel, _) => None
  end.
Proof.
  unfold Parse, Parse_fuel. cbn [reader List.length].
  unfold bind at 1. rewrite readBytes_1. reflexivity.
Qed.

(** The [ECMAArray] case of [parseValue] once its count field is read. *)
Lemma parseValue_ECMAArray fuel name x c0 c1 c2 c3 rest refs n :
  parseValue (S fuel)
    (mkValue ECMAArray name x,
     {| reader := c0 :: c1 :: c2 :: c3 :: rest; references := refs;
        bytesRead := n |}) =
  (properties <- liftP (parseProperties fuel) ;;
   setValue (values properties) ;; register)
    (mkValue ECMAArray name x,
     {| reader := rest; references := refs; bytesRead := n + 4 |}).
Proof.
  enter_parseValue. unfold bind at 1, liftP at 1. cbn [fst snd].
  rewrite readBytes_4. reflexivity.
Qed.

(** X9. The four-byte count of an [ECMAArray] is read and ignored: two
    streams that differ only in that field give the same result, the same
    reference table and the same byte count. *)
Theorem X9_ecma_array_count_ignored c0 c1 c2 c3 c0' c1' c2' c3' rest refs n :
  Parse {| reader := ECMAArray :: c0 :: c1 :: c2 :: c3 :: rest;
           references := refs; bytesRead := n |} =
  Parse {| reader := ECMAArray :: c0' :: c1' :: c2' :: c3' :: rest;
           references := refs; bytesRead := n |}.
Proof.
  rewrite !Parse_cons. cbn [List.length]. unfold newValue.
  rewrite !parseValue_ECMAArray. reflexivity.
Qed.

(** ** Strict arrays at their edges *)

(** The [StrictArray] case of [parseValue] once its count and its element
    tag are read. *)
Lemma parseValue_StrictArray fuel name x c0 c1 c2 c3 t rest refs n :
  parseValue (S fuel)
    (mkValue StrictArray name x,
     {| reader := c0 :: c1 :: c2 :: c3 :: t :: rest; references := refs;
        bytesRead := n |}) =
  (vals <- liftP (forLoop (Z.to_nat (Uint32 [c0; c1; c2; c3]))
                    (call (parseValue fuel) (newValue t "")) []) ;;
   setValue (values vals))
    (mkValue StrictArray name x,
     {| reader := rest; references := refs; bytesRead := n + 4 + 1 |}).
Proof.
  enter_parseValue. unfold bind at 1, liftP at 1. cbn [fst snd].
  rewrite readBytes_4. cbn zeta. unfold bind at 1, liftP at 1. cbn [fst snd].
  rewrite readBytes_1. unfold bind at 1. cbn [index0 ret]. reflexivity.
Qed.

(** X10. A [StrictArray] that declares no element decodes to an empty
    sequence whatever its element tag is, a refused tag included: the tag
    byte is consumed and never looked at. *)
Theorem X10_empty_strict_array t rest refs n :
  Parse {| reader := StrictArray :: x00 :: x00 :: x00 :: x00 :: t :: rest;
           references := refs; bytesRead := n |} =
  Some (mkResult (Some (mkValue StrictArray "" (values []))) (n + 1 + 4 + 1)
          None,
        {| reader := rest; references := refs;
           bytesRead := n + 1 + 4 + 1 |}).
Proof.
  apply (Parse_Ret_intro StrictArray). intros fuel. unfold newValue.
  rewrite parseValue_StrictArray. reflexivity.
Qed.

(** A value of a tag without payload, decoded as an array element. *)
Lemma call_no_payload fuel t p :
  t = Null \/ t = Undefined \/ handled t = false ->
  call (parseValue (S fuel)) (newValue t "") p = (Ret (mkValue t "" nil_), p).
Proof.
  intros Ht. unfold call. enter_parseValue. destruct p as [rd refs n].
  destruct t; try reflexivity;
    exfalso; destruct Ht as [H|[H|H]]; discriminate.
Qed.

Lemma forLoop_constant body v k :
  (forall p, body p = (Ret v, p)) ->
  forall vals p,
    forLoop k body vals p = (Ret (vals ++ repeat v k)%list, p).
Proof.
  intros Hb. induction k as [|k IH]; intros vals p; cbn [forLoop repeat].
  - rewrite app_nil_r. reflexivity.
  - unfold bind. rewrite Hb, IH, <- app_assoc. reflexivity.
Qed.

(** X11. The elements of a [StrictArray] whose element tag has no payload
    ([Null], [Undefined] or a tag without a case) take no bytes at all: the
    six bytes of tag, count and element tag decode to as many such values as
    the count declares. *)
Theorem X11_strict_array_of_empty_values t c0 c1 c2 c3 k rest refs n :
  t = Null \/ t = Undefined \/ handled t = false ->
  Uint32 [c0; c1; c2; c3] = Z.of_nat k ->
  Parse {| reader := StrictArray :: c0 :: c1 :: c2 :: c3 :: t :: rest;
           references := refs; bytesRead := n |} =
  Some (mkResult
          (Some (mkValue StrictArray ""
                   (values (repeat (mkValue t "" nil_) k))))
          (n + 1 + 4 + 1) None,
        {| reader := rest; references := refs;
           bytesRead := n + 1 + 4 + 1 |}).
Proof.
  intros Ht Hk. rewrite Parse_cons. unfold newValue.
  rewrite parseValue_StrictArray, Hk, Nat2Z.id.
  unfold bind, liftP. cbn [fst snd].
  rewrite (forLoop_constant _ (mkValue t "" nil_) k
             (fun p => call_no_payload _ t p Ht)).
  reflexivity.
Qed.

Lemma X11_strict_array_of_empty_values_witness :
  Parse {| reader := StrictArray :: x00 :: x00 :: x00 :: x03 :: Null :: [x09];
           references := []; bytesRead := 0 |} =
  Some (mkResult
          (Some (mkValue StrictArray ""
                   (values (repeat (mkValue Null "" nil_) 3))))
          (0 + 1 + 4 + 1) None,
        {| reader := [x09]; references := []; bytesRead := 0 + 1 + 4 + 1 |}).
Proof.
  apply (X11_strict_array_of_empty_values Null x00 x00 x00 x03 3 [x09] [] 0).
  - left. reflexivity.
  - reflexivity.
Defined.

(** * The payload of a value has the shape of its tag *)

Lemma tableShaped_sameRefs p p' :
  sameRefs p p' -> tableShaped p -> tableShaped p'.
Proof. unfold sameRefs, tableShaped. intros ->. auto. Qed.

Lemma tableShaped_register v p :
  tableShaped p -> complex (v_Marker v) = true -> wellShaped v = true ->
  tableShaped {| reader := reader p; references := (references p ++ [v])%list;
                 bytesRead := bytesRead p |}.
Proof.
  unfold tableShaped. cbn. intros Hp Hc Hv.
  rewrite forallb_app, Hp. cbn. rewrite Hc, Hv. reflexivity.
Qed.

Lemma wellShaped_resolved ref name :
  wellShaped ref = true ->
  wellShaped (mkValue (v_Marker ref) name (v_Value ref)) = true.
Proof. destruct ref as [m n x]. cbn. auto. Qed.

Lemma shaped_prim {A B} (m : M Parser A) (k : A -> M Frame B) Q v p :
  preserves sameRefs m ->
  tableShaped p ->
  (forall x p', tableShaped p' -> Q (Panic x) (v, p')) ->
  (forall p', tableShaped p' -> Q OutOfFuel (v, p')) ->
  (forall a p', tableShaped p' -> wp (k a) Q (v, p')) ->
  wp (bind (liftP m) k) Q (v, p).
Proof.
  intros Hm Hok HP HF HR. apply wp_bind, wp_liftP.
  apply (wp_preserves sameRefs); [assumption|].
  cbn [fst snd]. intros r p' Hs.
  apply (tableShaped_sameRefs _ _ Hs) in Hok.
  destruct r; cbn [bindQ]; auto.
Qed.

Lemma shaped_primP {A B} (m : M Parser A) (k : A -> M Parser B) Q p :
  preserves sameRefs m ->
  tableShaped p ->
  (forall x p', tableShaped p' -> Q (Panic x) p') ->
  (forall p', tableShaped p' -> Q OutOfFuel p') ->
  (forall a p', tableShaped p' -> wp (k a) Q p') ->
  wp (bind m k) Q p.
Proof.
  intros Hm Hok HP HF HR. apply wp_bind.
  apply (wp_preserves sameRefs); [assumption|].
  intros r p' Hs. apply (tableShaped_sameRefs _ _ Hs) in Hok.
  destruct r; cbn [bindQ]; auto.
Qed.

Section ShapeBody.
Variable pp : M Parser (list Value).
Variable pv : M Frame unit.
Hypothesis Hpp : forall p, tableShaped p -> wp pp shapedOK_list p.
Hypothesis Hpv :
  forall m n p, tableShaped p -> wp pv shapedOK_value (newValue m n, p).

Lemma call_shapedOK m n p :
  tableShaped p ->
  wp (call pv (newValue m n))
     (fun r p' => tableShaped p' /\
                  forall v, r = Ret v -> wellShaped v = true) p.
Proof.
  intros Hok. apply wp_call. eapply wp_mono; [|apply Hpv, Hok].
  intros [[]|x|] [v p'] [H1 H2]; cbn in *; split; auto; try discriminate.
  intros v' E. inversion E; subst. auto.
Qed.

Lemma forLoop_shapedOK m n count :
  forall vals p,
    tableShaped p -> forallb wellShaped vals = true ->
    wp (forLoop count (call pv (newValue m n)) vals) shapedOK_list p.
Proof.
  induction count as [|count IH]; intros vals p Hok Hvals; cbn [forLoop].
  - split; [assumption|]. intros l E. inversion E; subst. assumption.
  - apply wp_bind. eapply wp_mono; [|apply call_shapedOK, Hok].
    intros [v|x|] p' [H1 H2]; cbn [bindQ].
    + apply IH; [assumption|].
      rewrite forallb_app, Hvals. cbn. rewrite (H2 v eq_refl). reflexivity.
    + split; [assumption|discriminate].
    + split; [assumption|discriminate].
Qed.

Lemma container_shapedOK m n p :
  complex m = true ->
  tableShaped p ->
  wp (properties <- liftP pp ;; setValue (values properties) ;; register)
     shapedOK_value (mkValue m n nil_, p).
Proof.
  intros Hm Hok. apply wp_bind, wp_liftP. cbn [fst snd].
  eapply wp_mono; [|apply Hpp, Hok].
  intros [l|x|] p' [H1 H2]; cbn [bindQ];
    try (split; [assumption|discriminate]).
  specialize (H2 l eq_refl).
  assert (Hw : wellShaped (mkValue m n (values l)) = true).
  { cbn. rewrite H2, andb_true_r.
    destruct m; try discriminate; reflexivity. }
  unfold wp, bind, setValue, register. cbn. split; [|auto].
  apply tableShaped_register; assumption.
Qed.

Ltac shape_step :=
  first
    [ apply shaped_prim;
      [ solve [ apply sameRefs_readBytes | apply sameRefs_readString
              | apply sameRefs_readDouble ]
      | assumption
      | intros; split; [assumption|discriminate]
      | intros; split; [assumption|discriminate]
      | intros ]
    | apply wp_bind;
      match goal with
      | |- wp (index0 ?d) _ _ =>
          destruct d; unfold wp at 1; cbn [bindQ index0 ret panic fst snd]
      end
    | match goal with
      | |- wp (if ?c then _ else _) _ _ => destruct c
      | |- wp (match ?x with _ => _ end) _ _ => destruct x
      end
    | (unfold wp, bind, setValue, panic, ret; cbn;
       split;
       [assumption|first [discriminate|reflexivity|intros; discriminate]]) ].

Lemma parseValue_body_shapedOK m n p :
  tableShaped p ->
  wp (parseValue_body pp pv) shapedOK_value (newValue m n, p).
Proof.
  intros Hok. unfold parseValue_body, newValue.
  apply wp_bind. unfold wp at 1, getValue. cbn [fst snd bindQ v_Marker].
  destruct m; try (repeat shape_step; fail).
  - (* Object *)
    apply container_shapedOK; auto.
  - (* Reference *)
    shape_step. cbn zeta.
    apply wp_bind. unfold wp at 1, liftP, getReferences.
    cbn [fst snd bindQ].
    destruct (_ >? _); [repeat shape_step|].
    destruct (nth_error _ _) as [ref|] eqn:E; [|repeat shape_step].
    apply nth_error_In in E.
    assert (Href : wellShaped ref = true).
    { unfold tableShaped in *.
      match goal with
      | H : forallb _ (references ?q) = true,
        E : In ref (references ?q) |- _ =>
          rewrite forallb_forall in H; specialize (H ref E);
          apply andb_prop in H; tauto
      end. }
    unfold wp, bind, setValue, setMarker. cbn. split; [assumption|].
    intros _. apply (wellShaped_resolved ref n Href).
  - (* ECMAArray *)
    shape_step. apply container_shapedOK; auto.
  - (* StrictArray *)
    do 3 shape_step.
    + split; [assumption|discriminate].
    + apply wp_bind, wp_liftP. cbn [fst snd].
      eapply wp_mono; [|apply forLoop_shapedOK; [eassumption|reflexivity]].
      intros [l|x|] q [H1 H2]; cbn [bindQ];
        try (split; [assumption|discriminate]).
      unfold wp, setValue. cbn. split; [assumption|].
      intros _. apply (H2 l eq_refl).
  - (* TypedObject *)
    shape_step.
    apply wp_bind. unfold wp at 1, setName. cbn [fst snd bindQ].
    apply container_shapedOK; auto.
Qed.

End ShapeBody.

Lemma parseProperties_body_shapedOK pv continue :
  (forall m n p, tableShaped p -> wp pv shapedOK_value (newValue m n, p)) ->
  (forall l p, tableShaped p -> forallb wellShaped l = true ->
               wp (continue l) shapedOK_list p) ->
  forall properties p,
    tableShaped p -> forallb wellShaped properties = true ->
    wp (parseProperties_body pv continue properties) shapedOK_list p.
Proof.
  intros Hpv Hc properties p Hok Hprops. unfold parseProperties_body.
  assert (Hfail : forall (r : result (list Value)) q,
             tableShaped q -> (forall l, r <> Ret l) -> shapedOK_list r q).
  { intros r q Hq Hr. split; [assumption|]. intros l E. now apply Hr in E. }
  apply shaped_primP; [apply sameRefs_readString|assumption|..];
    try (intros; apply Hfail; [assumption|discriminate]).
  intros [name nameLength] p1 Hok1.
  destruct (nameLength =? 0).
  - apply shaped_primP; [apply sameRefs_readBytes|assumption|..];
      try (intros; apply Hfail; [assumption|discriminate]).
    intros data p2 Hok2. apply wp_bind.
    destruct data as [|b tl]; unfold wp at 1;
      cbn [bindQ index0 ret panic fst snd].
    + apply Hfail; [assumption|discriminate].
    + destruct (Byte.eqb b ObjectEnd); unfold wp; cbn.
      * split; [assumption|]. intros l E. inversion E; subst. assumption.
      * apply Hfail; [assumption|discriminate].
  - apply shaped_primP; [apply sameRefs_readBytes|assumption|..];
      try (intros; apply Hfail; [assumption|discriminate]).
    intros data p2 Hok2. apply wp_bind.
    destruct data as [|b tl]; unfold wp at 1;
      cbn [bindQ index0 ret panic fst snd].
    + apply Hfail; [assumption|discriminate].
    + apply wp_bind. eapply wp_mono; [|apply (call_shapedOK pv Hpv), Hok2].
      intros [v|x|] p3 [H1 H2]; cbn [bindQ];
        try (apply Hfail; [assumption|discriminate]).
      apply Hc; [assumption|].
      rewrite forallb_app, Hprops. cbn. rewrite (H2 v eq_refl). reflexivity.
Qed.

Lemma decoder_shapedOK fuel :
  (forall m n p,
      tableShaped p -> wp (parseValue fuel) shapedOK_value (newValue m n, p)) /\
  (forall l p,
      tableShaped p -> forallb wellShaped l = true ->
      wp (parseProperties_loop fuel l) shapedOK_list p).
Proof.
  induction fuel as [|fuel [IHv IHp]]; cbn [parseValue parseProperties_loop].
  - split; intros; (split; [assumption|discriminate]).
  - split; intros.
    + apply parseValue_body_shapedOK; auto.
    + apply parseProperties_body_shapedOK; auto.
Qed.

Lemma Parse_shapedOK p res p' :
  tableShaped p ->
  Parse p = Some (res, p') ->
  tableShaped p' /\
  forall v, r_err res = None -> r_value res = Some v -> wellShaped v = true.
Proof.
  intros Hok HP. apply Parse_fuel_inv in HP.
  destruct HP as [Hr|marker rest x v p' Hr E|marker rest v p' Hr E].
  - split; [assumption|discriminate].
  - eapply wp_eq in E; [|apply (proj1 (decoder_shapedOK _)); exact Hok].
    destruct E as [H1 _]. split; [assumption|discriminate].
  - eapply wp_eq in E; [|apply (proj1 (decoder_shapedOK _)); exact Hok].
    destruct E as [H1 H2]. split; [assumption|].
    cbn. intros v' _ E. inversion E; subst. auto.
Qed.

Lemma reachable_tableShaped p : reachable p -> tableShaped p.
Proof.
  induction 1 as [r|p res p' _ IH HP]; [reflexivity|].
  apply (Parse_shapedOK p res p' IH HP).
Qed.

(** X12. In every value tree returned by a successful [Parse], on a parser
    made by [New] and used by any number of earlier [Parse] calls, the
    payload of each value, at any depth, has the shape of its tag: a
    [float64] for [Number] and [Date], a boolean for [Boolean], a string for
    [String], [LongString] and [XmlDocument], a sequence of values for
    [Object], [ECMAArray], [TypedObject] and [StrictArray], nothing for every
    other tag; and no value carries [Reference], [Movieclip], [Unsupported],
    [Recordset] or [AvmPlusObject]. *)
Theorem X12_payload_shape p res p' v :
  reachable p ->
  Parse p = Some (res, p') ->
  r_err res = None ->
  r_value res = Some v ->
  wellShaped v = true.
Proof.
  intros Hreach HP Herr Hval.
  apply (proj2 (Parse_shapedOK p res p' (reachable_tableShaped p Hreach) HP) v);
    assumption.
Qed.

Lemma X12_payload_shape_witness :
  wellShaped
    (mkValue Object ""
       (values
          [mkValue Object "a" (values []);
           mkValue StrictArray "b"
             (values [mkValue Object "" (values [])])])) = true.
Proof.
  apply (X12_payload_shape
           (New [x03; x00; x01; x61; x03; x00; x00; x09;
                 x00; x01; x62; x0a; x00; x00; x00; x01; x07; x00; x00;
                 x00; x00; x09])
           (mkResult
              (Some (mkValue Object ""
                       (values
                          [mkValue Object "a" (values []);
                           mkValue StrictArray "b"
                             (values [mkValue Object "" (values [])])])))
              22 None)
           {| reader := [];
              references :=
                [mkValue Object "a" (values []);
                 mkValue Object ""
                   (values
                      [mkValue Object "a" (values []);
                       mkValue StrictArray "b"
                         (values [mkValue Object "" (values [])])])];
              bytesRead := 22 |}).
  - apply reachable_New.
  - reflexivity.
  - reflexivity.
  - reflexivity.
Defined.

(** * The failures of the decoder *)

Ltac expected :=
  unfold expected_error;
  repeat first [ reflexivity | (left; reflexivity) | right ].

Ltac panicOK_string :=
  split; [expected | intros [?|?]; discriminate].

Lemma readBytes_panQ len p :
  wp (readBytes len)
     (fun r p' =>
        panQ r p' /\
        forall data, r = Ret data -> Z.of_nat (List.length data) = len) p.
Proof.
  unfold wp. destruct (readBytes len p) as [r p'] eqn:E. cbn [fst snd].
  destruct (wp_eq _ _ _ _ E _ (readBytes_spec len p)) as [Hneg|data rest Hr Hl|e Hlt He].
  - split; [|discriminate]. intros x Hx. inversion Hx; subst.
    split; [expected | intros [H|H]; discriminate H].
  - split; [discriminate|]. intros d Hd. inversion Hd; subst. reflexivity.
  - split; [|discriminate]. intros x Hx. inversion Hx; subst. cbn.
    split; [left; assumption|reflexivity].
Qed.

Lemma panic_step_readBytes {B} len (k : list byte -> M Frame B) v p :
  (forall data p',
      Z.of_nat (List.length data) = len -> wp (k data) panQF (v, p')) ->
  wp (bind (liftP (readBytes len)) k) panQF (v, p).
Proof.
  intros Hk. apply wp_bind, wp_liftP. cbn [fst snd].
  eapply wp_mono; [|apply readBytes_panQ].
  intros [data|x|] p' [H1 H2]; cbn [bindQ].
  - apply Hk, (H2 data eq_refl).
  - intros y Hy. inversion Hy; subst. apply (H1 _ eq_refl).
  - discriminate.
Qed.

Lemma panic_stepP_readBytes {B} len (k : list byte -> M Parser B) p :
  (forall data p',
      Z.of_nat (List.length data) = len -> wp (k data) panQ p') ->
  wp (bind (readBytes len) k) panQ p.
Proof.
  intros Hk. apply wp_bind.
  eapply wp_mono; [|apply readBytes_panQ].
  intros [data|x|] p' [H1 H2]; cbn [bindQ].
  - apply Hk, (H2 data eq_refl).
  - intros y Hy. inversion Hy; subst. apply (H1 _ eq_refl).
  - discriminate.
Qed.

Lemma panic_step_any {A B} (m : M Parser A) (k : A -> M Frame B) v p :
  (forall q, wp m panQ q) ->
  (forall a p', wp (k a) panQF (v, p')) ->
  wp (bind (liftP m) k) panQF (v, p).
Proof.
  intros Hm Hk. apply wp_bind, wp_liftP. cbn [fst snd].
  eapply wp_mono; [|apply Hm].
  intros [a|x|] p' H; cbn [bindQ].
  - apply Hk.
  - intros y Hy. inversion Hy; subst. apply (H _ eq_refl).
  - discriminate.
Qed.

Lemma panic_stepP_any {A B} (m : M Parser A) (k : A -> M Parser B) p :
  (forall q, wp m panQ q) ->
  (forall a p', wp (k a) panQ p') ->
  wp (bind m k) panQ p.
Proof.
  intros Hm Hk. apply wp_bind.
  eapply wp_mono; [|apply Hm].
  intros [a|x|] p' H; cbn [bindQ].
  - apply Hk.
  - intros y Hy. inversion Hy; subst. apply (H _ eq_refl).
  - discriminate.
Qed.

Lemma ret_panQ {A} (a : A) p : wp (ret a) panQ p.
Proof. unfold wp. cbn. discriminate. Qed.

Lemma readDouble_panQ p : wp readDouble panQ p.
Proof.
  unfold readDouble. apply panic_stepP_readBytes. intros. apply ret_panQ.
Qed.

Lemma readString_panQ marker p : wp (readString marker) panQ p.
Proof.
  unfold readString. apply panic_stepP_any.
  - intros q. destruct (Byte.eqb marker String).
    + apply panic_stepP_readBytes. intros. apply ret_panQ.
    + destruct (_ || _).
      * apply panic_stepP_readBytes. intros. apply ret_panQ.
      * apply ret_panQ.
  - intros nameLength p'. apply panic_stepP_readBytes. intros. apply ret_panQ.
Qed.

Lemma forLoop_panQ body :
  (forall q, wp body panQ q) ->
  forall n vals p, wp (forLoop n body vals) panQ p.
Proof.
  intros Hb. induction n as [|n IH]; intros vals p; cbn [forLoop].
  - apply ret_panQ.
  - apply panic_stepP_any; auto.
Qed.

Lemma call_panQ body init :
  (forall f, wp body panQF f) -> forall p, wp (call body init) panQ p.
Proof.
  intros Hb p. apply wp_call. eapply wp_mono; [|apply Hb].
  intros [[]|x|] [v p'] H; cbn in *; try discriminate.
  intros y Hy. inversion Hy; subst. apply (H _ eq_refl).
Qed.

(** The last steps of a case of [parseValue]: they write [*value] or the
    table and do not panic. *)
Ltac panic_final :=
  unfold wp, bind, setValue, setMarker, setName, register, panic, ret; cbn;
  intros ? ?;
  first
    [ discriminate
    | match goal with
      | E : Panic _ = Panic _ |- _ => inversion E; subst; panicOK_string
      end ].

Ltac panic_step :=
  first
    [ apply panic_step_readBytes; intros ? ? ?
    | apply panic_step_any;
      [ solve [ intros; apply readDouble_panQ | intros; apply readString_panQ
              | assumption ]
      | intros ? ? ]
    | apply wp_bind;
      match goal with
      | Hlen : Z.of_nat (List.length ?d) = 1 |- wp (index0 ?d) _ _ =>
          destruct d; [discriminate Hlen|];
          unfold wp at 1; cbn [bindQ index0 ret panic fst snd]
      end
    | match goal with
      | |- wp (if ?c then _ else _) _ _ => destruct c
      end
    | panic_final ].

Section PanicBody.
Variable pp : M Parser (list Value).
Variable pv : M Frame unit.
Hypothesis Hpp : forall p, wp pp panQ p.
Hypothesis Hpv : forall f, wp pv panQF f.

Lemma parseValue_body_panQF m n y p :
  wp (parseValue_body pp pv) panQF (mkValue m n y, p).
Proof.
  unfold parseValue_body.
  apply wp_bind. unfold wp at 1, getValue. cbn [fst snd bindQ v_Marker].
  destruct m; try (repeat panic_step; fail).
  - (* Reference *)
    panic_step. cbn zeta.
    apply wp_bind. unfold wp at 1, liftP, getReferences.
    cbn [fst snd bindQ].
    match goal with
    | |- wp (if ?i >? ?l then _ else _) _ _ =>
        destruct (Z.gtb_spec i l) as [Hgt|Hle]
    end; [panic_final|].
    destruct (nth_error _ _) as [ref|] eqn:E; [panic_final|].
    exfalso. apply nth_error_None in E.
    match goal with
    | _ : context [Uint16 ?d] |- _ => pose proof (Uint16_nonneg d)
    end.
    lia.
  - (* StrictArray *)
    do 3 panic_step.
    apply panic_step_any; [|intros; panic_final].
    intros q. apply forLoop_panQ. intros q'. apply call_panQ, Hpv.
Qed.

End PanicBody.

Lemma parseProperties_body_panQ pv continue properties p :
  (forall f, wp pv panQF f) ->
  (forall l q, wp (continue l) panQ q) ->
  wp (parseProperties_body pv continue properties) panQ p.
Proof.
  intros Hpv Hc. unfold parseProperties_body.
  apply panic_stepP_any; [apply readString_panQ|].
  intros [name nameLength] p1.
  destruct (nameLength =? 0).
  - apply panic_stepP_readBytes. intros data p2 Hlen.
    destruct data as [|b tl]; [discriminate Hlen|].
    apply wp_bind. unfold wp at 1. cbn [bindQ index0 ret fst snd].
    destruct (Byte.eqb b ObjectEnd).
    + apply ret_panQ.
    + unfold wp, panic. cbn. intros x E. inversion E; subst. panicOK_string.
  - apply panic_stepP_readBytes. intros data p2 Hlen.
    destruct data as [|b tl]; [discriminate Hlen|].
    apply wp_bind. unfold wp at 1. cbn [bindQ index0 ret fst snd].
    apply panic_stepP_any; [intros q; apply call_panQ, Hpv|].
    intros property p3. apply Hc.
Qed.

Lemma decoder_panQ fuel :
  (forall f, wp (parseValue fuel) panQF f) /\
  (forall l p, wp (parseProperties_loop fuel l) panQ p).
Proof.
  induction fuel as [|fuel [IHv IHp]]; cbn [parseValue parseProperties_loop].
  - split; intros; unfold wp; cbn; discriminate.
  - split; intros.
    + destruct f as [[m n y] p]. apply parseValue_body_panQF; auto.
    + apply parseProperties_body_panQ; auto.
Qed.

Lemma Parse_panicOK p res p' e :
  Parse p = Some (res, p') ->
  r_err res = Some e ->
  expected_error e /\ (ShortRead e -> reader p' = []).
Proof.
  intros HP He. apply Parse_fuel_inv in HP.
  destruct HP as [Hr|marker rest x v p' Hr E|marker rest v p' Hr E];
    cbn in He.
  - inversion He; subst. split; [left; left; reflexivity|auto].
  - inversion He; subst.
    apply (wp_eq _ _ _ _ E _ (proj1 (decoder_panQ _) _) x eq_refl).
  - discriminate.
Qed.



(** X14. When [Parse] fails with [io.EOF] or [io.ErrUnexpectedEOF] the
    stream is exhausted: the read that came up short took every byte that
    was left. *)
Theorem X14_short_read_exhausts_stream p res p' e :
  Parse p = Some (res, p') ->
  r_err res = Some e ->
  ShortRead e ->
  reader p' = [].
Proof.
  intros HP He. apply (proj2 (Parse_panicOK p res p' e HP He)).
Qed.

Lemma X14_short_read_exhausts_stream_witness :
  reader {| reader := []; references := []; bytesRead := 4 |} = [].
Proof.
  apply (X14_short_read_exhausts_stream
           (New [x00; x40; x09; x1e])
           (mkResult (Some (mkValue Number "" nil_)) 0
              (Some ErrUnexpectedEOF))
           {| reader := []; references := []; bytesRead := 4 |}
           ErrUnexpectedEOF).
  - reflexivity.
  - reflexivity.
  - right. reflexivity.
Defined.

(** * Tags, names and the reference table *)

Lemma parseValue_body_name pp pv m n y p :
  wp (parseValue_body pp pv)
     (fun r f' => r = Ret tt -> m <> TypedObject -> v_Name (fst f') = n)
     (mkValue m n y, p).
Proof.
  unfold parseValue_body.
  apply wp_bind. unfold wp at 1, getValue. cbn [fst snd bindQ v_Marker].
  destruct m;
    try (unfold wp; intros _ Hne; exfalso; apply Hne; reflexivity);
    wp_frame;
    try (repeat progress (unfold wp, bindQ; cbn); intros;
         first [discriminate | reflexivity]).
Qed.

(** X15. A value that [parseValue] decodes keeps the tag it was allocated
    with unless that tag is [Reference], and keeps the name it was allocated
    with (the key of a property, no name elsewhere) unless its tag is
    [TypedObject]. *)
Theorem X15_tag_and_name_kept fuel m name x p v' p' :
  parseValue fuel (mkValue m name x, p) = (Ret tt, (v', p')) ->
  (m <> Reference -> v_Marker v' = m) /\
  (m <> TypedObject -> v_Name v' = name).
Proof.
  intros E. split.
  - apply (proj1 (parseValue_tagOf fuel m name x p v' p' E)).
  - destruct fuel as [|fuel]; [discriminate|]. cbn [parseValue] in E.
    apply (wp_eq _ _ _ _ E _ (parseValue_body_name _ _ m name x p) eq_refl).
Qed.

Lemma X15_tag_and_name_kept_witness :
  (String <> Reference ->
   v_Marker (mkValue String "k" (string_ "v")) = String) /\
  (String <> TypedObject ->
   v_Name (mkValue String "k" (string_ "v")) = "k"%string).
Proof.
  apply (X15_tag_and_name_kept 1 String "k" nil_
           {| reader := [x00; x01; x76]; references := []; bytesRead := 0 |}
           (mkValue String "k" (string_ "v"))
           {| reader := []; references := []; bytesRead := 3 |}).
  reflexivity.
Defined.

Lemma container_name pp v p :
  v_Name
    (fst (snd ((properties <- liftP pp ;; setValue (values properties) ;;
                register) (v, p)))) = v_Name v /\
  v_Marker
    (fst (snd ((properties <- liftP pp ;; setValue (values properties) ;;
                register) (v, p)))) = v_Marker v.
Proof.
  unfold bind, liftP. cbn [fst snd].
  destruct (pp p) as [[l|y|] q]; destruct v as [m n x]; cbn; auto.
Qed.

(** The [TypedObject] case of [parseValue] once its class name is read. *)
Lemma parseValue_TypedObject fuel name x b0 b1 cls rest refs n :
  Uint16 [b0; b1] = Z.of_nat (List.length cls) ->
  parseValue (S fuel)
    (mkValue TypedObject name x,
     {| reader := b0 :: b1 :: (cls ++ rest)%list; references := refs;
        bytesRead := n |}) =
  (properties <- liftP (parseProperties fuel) ;;
   setValue (values properties) ;; register)
    (mkValue TypedObject (string_of_list_byte cls) x,
     {| reader := rest; references := refs;
        bytesRead := n + 2 + Z.of_nat (List.length cls) |}).
Proof.
  intros Hlen. enter_parseValue.
  unfold bind at 1, liftP at 1. cbn [fst snd].
  rewrite (readString_String_app b0 b1 cls rest refs n Hlen).
  unfold bind at 1, setName at 1. reflexivity.
Qed.

(** X16. A [TypedObject] starts with its class name, a two-byte big-endian
    length and that many bytes, and the class name becomes the name of the
    value, whatever name it had and however the decoding of its properties
    ends.  A property whose value is a [TypedObject] therefore carries the
    class name, not its key. *)
Theorem X16_typed_object_class_name fuel name x b0 b1 cls rest refs n :
  Uint16 [b0; b1] = Z.of_nat (List.length cls) ->
  let out :=
    parseValue (S fuel)
      (mkValue TypedObject name x,
       {| reader := b0 :: b1 :: (cls ++ rest)%list; references := refs;
          bytesRead := n |}) in
  v_Name (fst (snd out)) = string_of_list_byte cls /\
  v_Marker (fst (snd out)) = TypedObject.
Proof.
  intros Hlen out. subst out.
  rewrite (parseValue_TypedObject fuel name x b0 b1 cls rest refs n Hlen).
  apply (container_name (parseProperties fuel)).
Qed.

Lemma X16_typed_object_class_name_witness :
  v_Name
    (fst (snd (parseValue 2
                 (mkValue TypedObject "key" nil_,
                  {| reader := x00 :: x01 :: ([x54] ++ [x00; x00; x09])%list;
                     references := []; bytesRead := 0 |}))))
  = string_of_list_byte [x54] /\
  v_Marker
    (fst (snd (parseValue 2
                 (mkValue TypedObject "key" nil_,
                  {| reader := x00 :: x01 :: ([x54] ++ [x00; x00; x09])%list;
                     references := []; bytesRead := 0 |}))))
  = TypedObject.
Proof.
  apply (X16_typed_object_class_name 1 "key" nil_ x00 x01 [x54]
           [x00; x00; x09] [] 0).
  reflexivity.
Defined.

(** * Property lists, entry by entry *)





(** * Decoding, then referring back *)

(** X18. Once a keyed container ([Object], [ECMAArray] or [TypedObject]) has
    been decoded, a backreference whose index is the last index of the
    reference table decodes to the tag and the payload of that container,
    under the backreference's own name, and takes two bytes. *)
Theorem X18_backreference_to_last
    fuel fuel' m name x p v' p' b0 b1 rest name' x' :
  complex m = true ->
  parseValue (S fuel) (mkValue m name x, p) = (Ret tt, (v', p')) ->
  reader p' = b0 :: b1 :: rest ->
  Uint16 [b0; b1] = Z.of_nat (List.length (references p')) - 1 ->
  parseValue (S fuel') (mkValue Reference name' x', p') =
  (Ret tt,
   (mkValue (v_Marker v') name' (v_Value v'),
    {| reader := rest; references := references p';
       bytesRead := bytesRead p' + 2 |})).
Proof.
  intros Hm E Hreader Hindex.
  apply complex_prefix in E as (q0 & nm & _ & E); [|assumption].
  apply container_Ret in E as (props & q & _ & _ & Hp').
  subst p'. cbn [reader references bytesRead] in *.
  rewrite Hreader, parseValue_Reference. cbn zeta.
  rewrite length_app in *. cbn [List.length] in *.
  destruct (Z.gtb_spec (Uint16 [b0; b1])
              (Z.of_nat (List.length (references q) + 1) - 1)); [lia|].
  replace (Z.to_nat (Uint16 [b0; b1])) with (List.length (references q))
    by lia.
  rewrite nth_error_app2 by lia. rewrite Nat.sub_diag. reflexivity.
Qed.

Lemma X18_backreference_to_last_witness :
  parseValue 1
    (mkValue Reference "again" nil_,
     {| reader := [x00; x00]; references := [mkValue Object "" (values [])];
        bytesRead := 3 |}) =
  (Ret tt,
   (mkValue (v_Marker (mkValue Object "" (values []))) "again"
      (v_Value (mkValue Object "" (values []))),
    {| reader := [];
       references :=
         references {| reader := [x00; x00];
                       references := [mkValue Object "" (values [])];
                       bytesRead := 3 |};
       bytesRead :=
         bytesRead {| reader := [x00; x00];
                      references := [mkValue Object "" (values [])];
                      bytesRead := 3 |} + 2 |})).
Proof.
  apply (X18_backreference_to_last 1 0 Object ""%string nil_
           (New [x00; x00; x09; x00; x00])
           (mkValue Object "" (values []))
           {| reader := [x00; x00];
              references := [mkValue Object "" (values [])];
              bytesRead := 3 |} x00 x00 [] "again"%string nil_).
  - reflexivity.
  - reflexivity.
  - reflexivity.
  - reflexivity.
Defined.

(** * Values that are not registered *)

Ltac same_step :=
  first
    [ apply (preserves_bind (onParser sameRefs)
               (onParser_trans sameRefs sameRefs_trans))
    | apply (preserves_bind sameRefs sameRefs_trans)
    | apply preserves_liftP
    | apply sameRefs_readBytes
    | apply sameRefs_readString
    | apply sameRefs_readDouble
    | apply (preserves_getReferences sameRefs sameRefs_refl)
    | apply (preserves_setValue sameRefs sameRefs_refl)
    | apply (preserves_setMarker sameRefs sameRefs_refl)
    | apply (preserves_index0 (onParser sameRefs)
               (onParser_refl sameRefs sameRefs_refl))
    | apply (preserves_ret (onParser sameRefs)
               (onParser_refl sameRefs sameRefs_refl))
    | apply (preserves_panic (onParser sameRefs)
               (onParser_refl sameRefs sameRefs_refl))
    | match goal with
      | |- forall _, _ => intro
      | |- preserves _ (if ?c then _ else _) => destruct c
      | |- preserves _ (match ?x with _ => _ end) => destruct x
      end ].

(** X19. Only the keyed containers, and the arrays that hold some, add to
    the reference table: decoding a value of any other tag, a backreference
    included, leaves the table exactly as it was, whether the decoding
    returns or fails. *)
Theorem X19_scalars_leave_table fuel m name x p :
  complex m = false ->
  m <> StrictArray ->
  references (snd (snd (parseValue fuel (mkValue m name x, p)))) =
  references p.
Proof.
  intros Hc Ha. destruct fuel as [|fuel]; [reflexivity|].
  cbn [parseValue]. unfold parseValue_body.
  unfold bind at 1, getValue. cbn [fst snd v_Marker].
  match goal with
  | |- references (snd (snd (?b ?f))) = _ =>
      cut (preserves (onParser sameRefs) b); [intros H; apply (H f)|]
  end.
  destruct m; try discriminate Hc; try (exfalso; apply Ha; reflexivity);
    repeat same_step.
Qed.

Lemma X19_scalars_leave_table_witness :
  references
    (snd (snd (parseValue 1
                 (mkValue Reference "" nil_,
                  {| reader := [x00; x00];
                     references := [mkValue Object "" (values [])];
                     bytesRead := 0 |})))) =
  references {| reader := [x00; x00];
                references := [mkValue Object "" (values [])];
                bytesRead := 0 |}.
Proof.
  apply (X19_scalars_leave_table 1 Reference ""%string nil_).
  - reflexivity.
  - discriminate.
Defined.

(** X20. On a stream that has no byte left [Parse] fails with [io.EOF],
    returns no value and the byte count 0, and leaves the parser as it
    was. *)
Theorem X20_empty_stream refs n :
  Parse {| reader := []; references := refs; bytesRead := n |} =
  Some (mkResult None 0 (Some EOF),
        {| reader := []; references := refs; bytesRead := n |}).
Proof.
  unfold Parse, Parse_fuel.
  destruct (read_marker_cases
              {| reader := []; references := refs; bytesRead := n |})
    as [(marker & rest & Hr & _)|[_ ->]]; [discriminate|reflexivity].
Qed.

(** * The byte source, exactly *)

(** X21. [readBytes] returns exactly when the requested length is not
    negative and the stream holds that many bytes; it then returns the next
    bytes of the stream in order, removes them from the stream, adds their
    number to the counter and leaves the reference table alone.  A request
    for no byte succeeds even on an exhausted stream. *)
Theorem X21_readBytes_returns len p data p' :
  readBytes len p = (Ret data, p') <->
  reader p = (data ++ reader p')%list /\
  Z.of_nat (List.length data) = len /\
  references p' = references p /\
  bytesRead p' = bytesRead p + len.
Proof.
  split.
  - apply readBytes_Ret.
  - intros (Hr & Hl & Hrefs & Hn).
    destruct p as [rd refs n], p' as [rd' refs' n'].
    cbn [reader references bytesRead] in *. subst rd refs' n' len.
    apply readBytes_app.
Qed.

Lemma X21_readBytes_returns_witness :
  readBytes 2 (New [x0a; x0b; x0c]) =
  (Ret [x0a; x0b], {| reader := [x0c]; references := []; bytesRead := 2 |}).
Proof.
  apply (proj2 (X21_readBytes_returns 2 (New [x0a; x0b; x0c]) [x0a; x0b]
                  {| reader := [x0c]; references := []; bytesRead := 2 |})).
  repeat split.
Defined.



(** * Termination *)

(** X23. The decoder terminates on every stream: [Parse] always ends, in a
    result or in an error, because every turn of the property loop and every
    nested value takes bytes from a finite stream; and what it ends in does
    not depend on the bound given to the recursion. *)
Theorem X23_parse_terminates p :
  (exists res p', Parse p = Some (res, p')) /\
  (forall fuel out, Parse_fuel fuel p = Some out -> Parse p = Some out).
Proof.
  split.
  - apply Parse_total.
  - intros fuel out. apply Parse_fuel_Parse.
Qed.

Lemma X23_parse_terminates_witness :
  Parse (New [x05]) =
  Some (mkResult (Some (mkValue Null "" nil_)) 1 None,
        {| reader := []; references := []; bytesRead := 1 |}).
Proof.
  apply (proj2 (X23_parse_terminates (New [x05])) 1%nat).
  reflexivity.
Defined.

(** * The empty object *)

(** X24. An [Object] with no property is the four bytes [03 00 00 09]:
    [Parse] returns an [Object] with an empty property sequence and
    registers it, so that its index is the length the reference table had
    before. *)
Theorem X24_empty_object rest refs n :
  Parse {| reader := Object :: x00 :: x00 :: ObjectEnd :: rest;
           references := refs; bytesRead := n |} =
  Some (mkResult (Some (mkValue Object "" (values []))) (n + 4) None,
        {| reader := rest;
           references := (refs ++ [mkValue Object "" (values [])])%list;
           bytesRead := n + 4 |}) /\
  nth_error (refs ++ [mkValue Object "" (values [])])%list (List.length refs) =
  Some (mkValue Object "" (values [])).
Proof.
  split.
  - replace (n + 4) with (n + 1 + 2 + 0 + 1) by lia.
    rewrite Parse_cons. cbn [List.length parseValue parseProperties_loop].
    unfold parseValue_body, newValue.
    unfold bind at 1, getValue. cbn [fst snd v_Marker].
    unfold bind at 1, liftP at 1. cbn [fst snd].
    unfold parseProperties_body. unfold bind at 1.
    pose proof (readString_String_app x00 x00 [] (ObjectEnd :: rest) refs
                  (n + 1) eq_refl) as Hkey.
    cbn [app List.length Z.of_nat] in Hkey. rewrite Hkey.
    cbn [Z.eqb]. unfold bind at 1. rewrite readBytes_1. reflexivity.
  - rewrite nth_error_app2 by lia. rewrite Nat.sub_diag. reflexivity.
Qed.
